(** * icu-le-hb: the ICU LayoutEngine API on top of the HarfBuzz shaper

    A shallow embedding of [src/LayoutEngine.cpp] together with the part
    of its environment that the file talks to:

    - machine integers ([le_int32], [hb_position_t], [unsigned int]) are
      [Z] with the wrap-around written out;
    - C [float] is IEEE 754 binary32, taken from the standard library's
      [SpecFloat] at precision 24 and maximal exponent 128;
    - an operation whose behaviour the C++ standard leaves undefined
      (a float that does not fit the integer it is converted to, the
      negation of the least [hb_position_t], a store through a null
      pointer, an access past the end of an array) is [None] in the option
      monad; the [le_int32] sum in the argument check of [layoutChars] is
      taken with the wrap-around of the machine, which is what decides
      the calls that the check lets through;
    - the HarfBuzz objects are records, the shaper itself is a parameter. *)

From Stdlib Require Import ZArith Lia List Bool QArith Qpower.
From Stdlib Require Import SpecFloat.
From stdpp Require Import base option list gmap.

Local Open Scope Z_scope.

(** ** Machine integers *)

Module Int.

Definition min_int32 : Z := - 2 ^ 31.
Definition max_int32 : Z := 2 ^ 31 - 1.

Definition in_int32 (z : Z) : bool := (min_int32 <=? z) && (z <=? max_int32).

(** Two's complement reduction to 32 bits, signed and unsigned. *)
Definition to_int32 (z : Z) : Z := (z + 2 ^ 31) mod 2 ^ 32 - 2 ^ 31.
Definition to_uint32 (z : Z) : Z := z mod 2 ^ 32.

Definition add32 (a b : Z) : Z := to_int32 (a + b).
Definition sub32 (a b : Z) : Z := to_int32 (a - b).
(** Unary minus on a 32-bit signed integer: undefined (signed overflow) at
    the least one. *)
Definition neg32 (a : Z) : option Z := if a =? min_int32 then None else Some (- a).

End Int.

Import Int.

(** ** C [float] *)

Module Float32.

Definition float : Type := spec_float.

Definition prec : Z := 24.
Definition emax : Z := 128.

Definition fzero : float := S754_zero false.
Definition fadd (a b : float) : float := SFadd prec emax a b.
Definition fmul (a b : float) : float := SFmul prec emax a b.

(** Conversion of an integer to [float]: round to nearest, ties to even. *)
Definition float_of_int (v : Z) : float := binary_normalize prec emax v 0 false.

(** Conversion of a [float] to a 32-bit signed integer: the fractional
    part is discarded; the behaviour is undefined when the truncated
    value does not fit (and for infinities and NaN). *)
Definition int_of_float (f : float) : option Z :=
  match f with
  | S754_zero _ => Some 0
  | S754_finite s m e =>
      let z := cond_Zopp s (Z.shiftl (Zpos m) e) in
      if in_int32 z then Some z else None
  | S754_infinity _ | S754_nan => None
  end.

(** Conversion of a [float] to [unsigned int]: the fractional part is
    discarded; the behaviour is undefined when the truncated value does
    not fit (and for infinities and NaN). *)
Definition uint_of_float (f : float) : option Z :=
  match f with
  | S754_zero _ => Some 0
  | S754_finite s m e =>
      let z := cond_Zopp s (Z.shiftl (Zpos m) e) in
      if (0 <=? z) && (z <? 2 ^ 32) then Some z else None
  | S754_infinity _ | S754_nan => None
  end.

(** [scalblnf (x, n)] is [x * 2^n], correctly rounded. *)
Definition scalblnf (x : float) (n : Z) : float := SFldexp prec emax x n.

(** The rational number a finite float stands for. *)
Definition SF2Q (f : float) : Q :=
  match f with
  | S754_finite s m e => inject_Z (cond_Zopp s (Zpos m)) * Qpower 2 e
  | _ => 0
  end.

Definition is_finite (f : float) : bool :=
  match f with
  | S754_zero _ | S754_finite _ _ _ => true
  | _ => false
  end.

(** An integer that [float] holds exactly: at most 24 significant bits. *)
Definition significant_bits_ok (v : Z) : bool :=
  Z.abs v mod 2 ^ Z.max 0 (Z.log2 (Z.abs v) + 1 - prec) =? 0.

(** A fixed-point value that both coordinate spaces hold: a 32-bit
    integer that is a [float] as well. *)
Definition representable (v : Z) : bool := in_int32 v && significant_bits_ok v.

(** The mantissa [m] times [2^k]. *)
Definition shl_pos (m : positive) (k : Z) : positive :=
  match k with Zpos d => Pos.iter xO m d | _ => m end.

(** [m * 2^e] is the integer [a]. *)
Definition exactly (m : positive) (e : Z) (a : Z) : Prop :=
  Zpos m * 2 ^ Z.max 0 e = a * 2 ^ Z.max 0 (- e).

End Float32.

Import Float32.

(** ** The ICU Layout Engine types the file includes

    [LETypes.h] and [LEFontInstance.h] belong to the repository but are not
    part of the translated source; what [LayoutEngine.cpp] uses of them is
    given here. *)

(** Modelled from the spec: the [LEErrorCode] enumeration of [LETypes.h],
    with the two error kinds of the spec's error handling section
    ([IllegalArgument], [AllocationError]), the success code, the
    informational warning that sorts below it and the remaining failure
    codes. *)
Inductive LEErrorCode : Type :=
  | LE_NO_SUBFONT_WARNING
  | LE_NO_ERROR
  | LE_ILLEGAL_ARGUMENT_ERROR
  | LE_MEMORY_ALLOCATION_ERROR
  | LE_INDEX_OUT_OF_BOUNDS_ERROR
  | LE_NO_LAYOUT_ERROR
  | LE_INTERNAL_ERROR
  | LE_FONT_FILE_NOT_FOUND_ERROR
  | LE_MISSING_FONT_TABLE_ERROR.

(** Modelled from the spec: the macro [LE_FAILURE] of [LETypes.h], the test
    for "an already-failed error code": every code above [LE_NO_ERROR]. *)
Definition LE_FAILURE (code : LEErrorCode) : bool :=
  match code with
  | LE_NO_SUBFONT_WARNING | LE_NO_ERROR => false
  | _ => true
  end.

(** Modelled from the spec: [LEPoint] of [LETypes.h], a pair of device-unit
    coordinates. *)
Record LEPoint : Type := { fX : float; fY : float }.

(** Modelled from the spec: the font-metrics provider [LEFontInstance]
    ("FontCapability"), by the operations the spec lists for it.
    [getFontTable] yields [None] for a null table pointer;
    [getGlyphPoint] yields the boolean the C++ method returns together with
    whatever it left in its [LEPoint &] argument; the pixels-per-em pair
    and the scale factors are [float], as the public [LEFontInstance.h]
    of ICU declares the four methods. *)
Record LEFontInstance : Type := {
  getFontTable : Z -> option (list Z);
  mapCharToGlyph : Z -> Z;
  getGlyphAdvance : Z -> LEPoint;
  getGlyphPoint : Z -> Z -> bool * LEPoint;
  getXPixelsPerEm : float;
  getYPixelsPerEm : float;
  getScaleFactorX : float;
  getScaleFactorY : float
}.

(** ** Out-parameters of the engine callbacks

    The callbacks receive addresses ([hb_codepoint_t *], [hb_position_t *]);
    an address is a [Z], the null pointer is [0], and the integers stored
    behind addresses form a finite map. *)

Definition NULL : Z := 0.

Definition poke (p : Z) (v : Z) (h : gmap Z Z) : option (gmap Z Z) :=
  if decide (p = NULL) then None else Some (<[p := v]> h).

(** ** Caller-supplied arrays

    An array argument is the list of its elements; a store past its end is
    undefined. *)

Definition array_store {A : Type} (a : list A) (i : nat) (v : A) : option (list A) :=
  if decide (i < length a)%nat then Some (<[i := v]> a) else None.

(** ** The HarfBuzz objects and entry points the file uses

    HarfBuzz is an external library; the records below keep the fields of
    its buffer and font objects that [LayoutEngine.cpp] sets or reads, and
    the functions are the documented behaviour of the [hb_*] entry points
    of [hb.h] that the file calls. *)

Module HarfBuzz.

Record hb_glyph_info_t : Type := { codepoint : Z; cluster : Z }.

Record hb_glyph_position_t : Type := {
  x_advance : Z; y_advance : Z; x_offset : Z; y_offset : Z
}.

(** The buffer keeps two parallel arrays, [info] and [pos], of the same
    length; one list element holds entry [i] of both. *)
Record hb_glyph_t : Type := { info : hb_glyph_info_t; pos : hb_glyph_position_t }.

Definition zero_position : hb_glyph_position_t :=
  {| x_advance := 0; y_advance := 0; x_offset := 0; y_offset := 0 |}.

Inductive hb_direction_t : Type :=
  | HB_DIRECTION_INVALID
  | HB_DIRECTION_LTR
  | HB_DIRECTION_RTL
  | HB_DIRECTION_TTB
  | HB_DIRECTION_BTT.

Definition HB_BUFFER_FLAG_DEFAULT : Z := 0.
Definition HB_BUFFER_FLAG_BOT : Z := 1.
Definition HB_BUFFER_FLAG_EOT : Z := 2.

Inductive hb_unicode_funcs_t : Type :=
  | hb_unicode_funcs_default
  | hb_icu_unicode_funcs.

Definition hb_icu_get_unicode_funcs : hb_unicode_funcs_t := hb_icu_unicode_funcs.

Definition CONTEXT_LENGTH : nat := 5.

Record hb_buffer_t : Type := {
  unicode_funcs : hb_unicode_funcs_t;
  script : Z;
  direction : hb_direction_t;
  flags : Z;
  replacement : Z;
  glyphs : list hb_glyph_t;
  context_pre : list Z;
  context_post : list Z
}.

Definition hb_buffer_create : hb_buffer_t :=
  {| unicode_funcs := hb_unicode_funcs_default; script := 0;
     direction := HB_DIRECTION_INVALID; flags := HB_BUFFER_FLAG_DEFAULT;
     replacement := 65533; glyphs := []; context_pre := []; context_post := [] |}.

Definition hb_buffer_set_unicode_funcs (b : hb_buffer_t) (u : hb_unicode_funcs_t) : hb_buffer_t :=
  {| unicode_funcs := u; script := script b; direction := direction b; flags := flags b;
     replacement := replacement b; glyphs := glyphs b;
     context_pre := context_pre b; context_post := context_post b |}.

Definition hb_buffer_set_script (b : hb_buffer_t) (s : Z) : hb_buffer_t :=
  {| unicode_funcs := unicode_funcs b; script := s; direction := direction b; flags := flags b;
     replacement := replacement b; glyphs := glyphs b;
     context_pre := context_pre b; context_post := context_post b |}.

Definition hb_buffer_set_direction (b : hb_buffer_t) (d : hb_direction_t) : hb_buffer_t :=
  {| unicode_funcs := unicode_funcs b; script := script b; direction := d; flags := flags b;
     replacement := replacement b; glyphs := glyphs b;
     context_pre := context_pre b; context_post := context_post b |}.

Definition hb_buffer_set_flags (b : hb_buffer_t) (f : Z) : hb_buffer_t :=
  {| unicode_funcs := unicode_funcs b; script := script b; direction := direction b; flags := f;
     replacement := replacement b; glyphs := glyphs b;
     context_pre := context_pre b; context_post := context_post b |}.

Definition zero_glyph : hb_glyph_t :=
  {| info := {| codepoint := 0; cluster := 0 |}; pos := zero_position |}.

(** [hb_buffer_set_length]: shorter drops the tail, longer appends zeroed
    entries; the text context after the buffer is dropped, the one before
    it too when the buffer becomes empty. *)
Definition hb_buffer_set_length (b : hb_buffer_t) (n : nat) : hb_buffer_t :=
  {| unicode_funcs := unicode_funcs b; script := script b; direction := direction b; flags := flags b;
     replacement := replacement b;
     glyphs := take n (glyphs b) ++ replicate (n - length (glyphs b)) zero_glyph;
     context_pre := match n with O => [] | S _ => context_pre b end;
     context_post := [] |}.

Definition hb_buffer_get_length (b : hb_buffer_t) : nat := length (glyphs b).

Definition hb_buffer_get_glyph_infos (b : hb_buffer_t) : list hb_glyph_t * nat :=
  (glyphs b, length (glyphs b)).

Definition hb_buffer_get_glyph_positions (b : hb_buffer_t) : list hb_glyph_t * nat :=
  (glyphs b, length (glyphs b)).

(** *** UTF-16 *)

Definition is_high_surrogate (c : Z) : bool := (55296 <=? c) && (c <=? 56319).
Definition is_low_surrogate (c : Z) : bool := (56320 <=? c) && (c <=? 57343).

Definition surrogate_pair (h l : Z) : Z := Z.shiftl h 10 + l - 56613888.

(** Decoding forward from code unit [i]: every code point comes with the
    index of its first code unit. *)
Fixpoint utf16_next (repl : Z) (i : Z) (text : list Z) : list hb_glyph_info_t :=
  match text with
  | [] => []
  | c :: rest =>
      if is_high_surrogate c then
        match rest with
        | l :: rest' =>
            if is_low_surrogate l
            then {| codepoint := surrogate_pair c l; cluster := i |} :: utf16_next repl (i + 2) rest'
            else {| codepoint := repl; cluster := i |} :: utf16_next repl (i + 1) rest
        | [] => [ {| codepoint := repl; cluster := i |} ]
        end
      else if is_low_surrogate c
      then {| codepoint := repl; cluster := i |} :: utf16_next repl (i + 1) rest
      else {| codepoint := c; cluster := i |} :: utf16_next repl (i + 1) rest
  end.

(** Decoding backward: the argument is the text before the position,
    nearest code unit first. *)
Fixpoint utf16_prev (repl : Z) (rev_text : list Z) : list Z :=
  match rev_text with
  | [] => []
  | c :: rest =>
      if is_low_surrogate c then
        match rest with
        | h :: rest' =>
            if is_high_surrogate h
            then surrogate_pair h c :: utf16_prev repl rest'
            else repl :: utf16_prev repl rest
        | [] => [ repl ]
        end
      else if is_high_surrogate c
      then repl :: utf16_prev repl rest
      else c :: utf16_prev repl rest
  end.

Fixpoint utf16_strlen (text : list Z) : option Z :=
  match text with
  | [] => None
  | c :: rest => if c =? 0 then Some 0 else Z.succ <$> utf16_strlen rest
  end.

Definition unshaped (i : hb_glyph_info_t) : hb_glyph_t := {| info := i; pos := zero_position |}.

(** [hb_buffer_add_utf16 (buffer, text, text_length, item_offset,
    item_length)]: appends the code points of
    [text[item_offset .. item_offset + item_length)], each with its
    offset from [text] as cluster value; on an empty buffer and with
    [item_offset > 0] the (up to five) code points before the item become
    the leading context; the (up to five) code points after the item, up
    to [text_length], become the trailing context. The caller owes an
    array that holds [text_length] units and the whole item. *)
Definition hb_buffer_add_utf16 (b : hb_buffer_t) (text : list Z)
    (text_length : Z) (item_offset : Z) (item_length : Z) : option hb_buffer_t :=
  text_length ← (if text_length =? -1 then utf16_strlen text else Some text_length);
  let item_length := if item_length =? -1 then text_length - item_offset else item_length in
  if decide (0 <= item_offset /\ text_length <= Z.of_nat (length text)
             /\ item_offset + Z.max 0 item_length <= Z.of_nat (length text))
  then
    let item_offset' := Z.to_nat item_offset in
    let item_length' := Z.to_nat item_length in
    let pre :=
      if decide (glyphs b = [] /\ 0 < item_offset)
      then take CONTEXT_LENGTH (utf16_prev (replacement b) (reverse (take item_offset' text)))
      else context_pre b in
    let items := utf16_next (replacement b) item_offset (take item_length' (drop item_offset' text)) in
    let post :=
      take CONTEXT_LENGTH
        (codepoint <$> utf16_next (replacement b) 0
           (drop (item_offset' + item_length') (take (Z.to_nat text_length) text))) in
    Some {| unicode_funcs := unicode_funcs b; script := script b; direction := direction b;
            flags := flags b; replacement := replacement b;
            glyphs := glyphs b ++ (unshaped <$> items);
            context_pre := pre; context_post := post |}
  else None.

(** *** Fonts *)

(** The three callbacks the file installs; [void *font_data] is the font
    instance the callbacks were bound with. The [hb_font_t *] and
    [void *user_data] arguments, which no callback of the file uses, are
    left out. *)
Record hb_font_funcs_t : Type := {
  glyph_func : LEFontInstance -> Z -> Z -> Z -> gmap Z Z -> option (bool * gmap Z Z);
  glyph_h_advance_func : LEFontInstance -> Z -> option Z;
  glyph_contour_point_func :
    LEFontInstance -> Z -> Z -> Z -> Z -> gmap Z Z -> option (bool * gmap Z Z)
}.

(** A face made by [hb_face_create_for_tables] is its table callback:
    from a tag to the blob of the table's bytes. *)
Record hb_font_t : Type := {
  face : Z -> list Z;
  klass : option hb_font_funcs_t;
  font_data : option LEFontInstance;
  x_scale : Z;
  y_scale : Z;
  x_ppem : Z;
  y_ppem : Z
}.

Definition hb_blob_create (data : option (list Z)) (length : nat) : list Z :=
  match data with
  | Some bytes => take length bytes
  | None => []
  end.

Definition hb_font_create (f : Z -> list Z) : hb_font_t :=
  {| face := f; klass := None; font_data := None;
     x_scale := 0; y_scale := 0; x_ppem := 0; y_ppem := 0 |}.

Definition hb_font_set_funcs (f : hb_font_t) (k : hb_font_funcs_t) (d : LEFontInstance) : hb_font_t :=
  {| face := face f; klass := Some k; font_data := Some d;
     x_scale := x_scale f; y_scale := y_scale f; x_ppem := x_ppem f; y_ppem := y_ppem f |}.

Definition hb_font_set_scale (f : hb_font_t) (xs ys : Z) : hb_font_t :=
  {| face := face f; klass := klass f; font_data := font_data f;
     x_scale := xs; y_scale := ys; x_ppem := x_ppem f; y_ppem := y_ppem f |}.

(** The ppem arguments are [unsigned int]: a caller that holds another
    type converts on the call. *)
Definition hb_font_set_ppem (f : hb_font_t) (xp yp : Z) : hb_font_t :=
  {| face := face f; klass := klass f; font_data := font_data f;
     x_scale := x_scale f; y_scale := y_scale f;
     x_ppem := xp; y_ppem := yp |}.

(** *** The shaper

    [hb_shape] rewrites the buffer in place; it calls back into the font,
    so it is undefined where a callback is. [hb_icu_script_to_script]
    and the outcome of the two allocating constructors come from the
    library, too. *)
Class Shaper : Type := {
  hb_shape : hb_font_t -> hb_buffer_t -> option hb_buffer_t;
  hb_icu_script_to_script : Z -> Z
}.

(** What the file relies on from [hb_shape]: the buffer flags are the
    caller's, and every cluster value of the output is one of the
    input. *)
Record shaper_contract (S : Shaper) : Prop := {
  shape_flags : forall f b b', hb_shape f b = Some b' -> flags b' = flags b;
  shape_clusters : forall f b b' g,
    hb_shape f b = Some b' -> g ∈ glyphs b' ->
    exists g0, g0 ∈ glyphs b /\ cluster (info g) = cluster (info g0)
}.

(** [hb_buffer_create] and [hb_font_create] return the inert empty
    object when they cannot allocate. *)
Record hb_alloc : Type := { buffer_allocated : bool; font_allocated : bool }.

End HarfBuzz.

Import HarfBuzz.

(** ** [src/LayoutEngine.cpp] *)

Definition kTypoFlagKern : Z := 1.
Definition kTypoFlagLiga : Z := 2.

(** The [hb_position_t] argument is converted to [float] on the call. *)
Definition to_float (v : Z) : float := scalblnf (float_of_int v) (-8).

(** The [float] result of [scalblnf] is converted to [hb_position_t] on
    return. *)
Definition from_float (v : float) : option Z := int_of_float (scalblnf v 8).

Definition icu_le_hb_reference_table (fontInstance : LEFontInstance) (tag : Z) : list Z :=
  let data := getFontTable fontInstance tag in
  let length := match data with Some bytes => length bytes | None => O end in
  hb_blob_create data length.

(** [glyph] is the address the mapped glyph goes to. *)
Definition icu_le_hb_font_get_glyph (font_data : LEFontInstance)
    (unicode variation_selector : Z) (glyph : Z) (h : gmap Z Z) : option (bool * gmap Z Z) :=
  let fontInstance := font_data in
  h ← poke glyph (mapCharToGlyph fontInstance unicode) h;
  Some (negb (glyph =? NULL), h).

Definition icu_le_hb_font_get_glyph_h_advance (font_data : LEFontInstance) (glyph : Z) : option Z :=
  let fontInstance := font_data in
  let advance := getGlyphAdvance fontInstance glyph in
  from_float (fX advance).

(** [x] and [y] are the addresses the coordinates go to. *)
Definition icu_le_hb_font_get_glyph_contour_point (font_data : LEFontInstance)
    (glyph point_index : Z) (x y : Z) (h : gmap Z Z) : option (bool * gmap Z Z) :=
  let fontInstance := font_data in
  let '(found, point) := getGlyphPoint fontInstance glyph (to_int32 point_index) in
  if negb found then Some (false, h)
  else
    vx ← from_float (fX point);
    h ← poke x vx h;
    vy ← from_float (fY point);
    h ← poke y vy h;
    Some (true, h).

Definition icu_le_hb_get_font_funcs : hb_font_funcs_t :=
  {| glyph_func := icu_le_hb_font_get_glyph;
     glyph_h_advance_func := icu_le_hb_font_get_glyph_h_advance;
     glyph_contour_point_func := icu_le_hb_font_get_glyph_contour_point |}.

(** A session whose two handles are live objects. *)
Record LayoutEngine : Type := {
  fHbFont : hb_font_t;
  fHbBuffer : hb_buffer_t;
  fTypoFlags : Z;
  x : float;
  y : float
}.

(** The constructor. Its member initialiser list names [fHbFont],
    [fHbBuffer] and [fTypoFlags] and its body assigns neither [x] nor [y]:
    the two members keep what the storage of the object held, [raw_x] and
    [raw_y]. The object component of the result is [None] on the paths
    that return early, where the object is left with a null or inert
    handle. The two scales are [float] products converted by
    [from_float], the vertical one negated as an [hb_position_t]; the
    two [float] pixels-per-em values are converted to the
    [unsigned int] parameters of [hb_font_set_ppem]. *)
Definition LayoutEngine_ctor `{Shaper} (alloc : hb_alloc) (raw_x raw_y : float)
    (fontInstance : LEFontInstance) (scriptCode languageCode typoFlags : Z)
    (success : LEErrorCode) : option (option LayoutEngine * LEErrorCode) :=
  if LE_FAILURE success then Some (None, success)
  else if negb (buffer_allocated alloc) then Some (None, LE_MEMORY_ALLOCATION_ERROR)
  else
    let fHbBuffer := hb_buffer_create in
    let fHbBuffer := hb_buffer_set_unicode_funcs fHbBuffer hb_icu_get_unicode_funcs in
    let fHbBuffer := hb_buffer_set_script fHbBuffer (hb_icu_script_to_script scriptCode) in
    let face := icu_le_hb_reference_table fontInstance in
    if negb (font_allocated alloc) then Some (None, LE_MEMORY_ALLOCATION_ERROR)
    else
      let fHbFont := hb_font_create face in
      let fHbFont := hb_font_set_funcs fHbFont icu_le_hb_get_font_funcs fontInstance in
      xs ← from_float (fmul (getXPixelsPerEm fontInstance) (getScaleFactorX fontInstance));
      ys ← from_float (fmul (getYPixelsPerEm fontInstance) (getScaleFactorY fontInstance));
      nys ← neg32 ys;
      let fHbFont := hb_font_set_scale fHbFont xs nys in
      xp ← uint_of_float (getXPixelsPerEm fontInstance);
      yp ← uint_of_float (getYPixelsPerEm fontInstance);
      let fHbFont := hb_font_set_ppem fHbFont xp yp in
      Some (Some {| fHbFont := fHbFont; fHbBuffer := fHbBuffer; fTypoFlags := typoFlags;
                    x := raw_x; y := raw_y |}, success).

Definition getGlyphCount (this : LayoutEngine) : Z :=
  to_int32 (Z.of_nat (hb_buffer_get_length (fHbBuffer this))).

(** [for (i = 0; i < count; i++) out[i] = f (info[i]);] from index [i] on. *)
Fixpoint copy_loop {A : Type} (f : hb_glyph_t -> A) (info : list hb_glyph_t) (i : nat)
    (out : list A) : option (list A) :=
  match info with
  | [] => Some out
  | g :: rest =>
      out ← array_store out i (f g);
      copy_loop f rest (S i) out
  end.

Definition getCharIndices_base (this : LayoutEngine) (charIndices : list Z) (indexBase : Z)
    (success : LEErrorCode) : option (list Z) :=
  if LE_FAILURE success then Some charIndices
  else
    let '(info, count) := hb_buffer_get_glyph_infos (fHbBuffer this) in
    copy_loop (fun g => to_int32 (cluster (HarfBuzz.info g) + indexBase)) info 0 charIndices.

Definition getCharIndices (this : LayoutEngine) (charIndices : list Z)
    (success : LEErrorCode) : option (list Z) :=
  if LE_FAILURE success then Some charIndices
  else
    let '(info, count) := hb_buffer_get_glyph_infos (fHbBuffer this) in
    copy_loop (fun g => to_int32 (cluster (HarfBuzz.info g))) info 0 charIndices.

Definition getGlyphs_extraBits (this : LayoutEngine) (glyphs : list Z) (extraBits : Z)
    (success : LEErrorCode) : option (list Z) :=
  if LE_FAILURE success then Some glyphs
  else
    let '(info, count) := hb_buffer_get_glyph_infos (fHbBuffer this) in
    copy_loop (fun g => Z.lor (codepoint (HarfBuzz.info g)) extraBits) info 0 glyphs.

Definition getGlyphs (this : LayoutEngine) (glyphs : list Z)
    (success : LEErrorCode) : option (list Z) :=
  if LE_FAILURE success then Some glyphs
  else
    let '(info, count) := hb_buffer_get_glyph_infos (fHbBuffer this) in
    copy_loop (fun g => codepoint (HarfBuzz.info g)) info 0 glyphs.

(** The loop of [getGlyphPositions] from index [i] on, with the running pen
    in [x], [y]; it hands back the final [i] and pen. *)
Fixpoint getGlyphPositions_loop (pos : list hb_glyph_t) (i : nat) (x y : float)
    (positions : list float) : option (nat * float * float * list float) :=
  match pos with
  | [] => Some (i, x, y, positions)
  | g :: rest =>
      positions ← array_store positions (2 * i) (fadd x (to_float (x_offset (HarfBuzz.pos g))));
      positions ← array_store positions (2 * i + 1) (fadd y (to_float (y_offset (HarfBuzz.pos g))));
      getGlyphPositions_loop rest (S i)
        (fadd x (to_float (x_advance (HarfBuzz.pos g))))
        (fadd y (to_float (y_advance (HarfBuzz.pos g)))) positions
  end.

Definition getGlyphPositions (this : LayoutEngine) (positions : list float)
    (success : LEErrorCode) : option (list float) :=
  if LE_FAILURE success then Some positions
  else
    let '(pos, count) := hb_buffer_get_glyph_positions (fHbBuffer this) in
    '(i, x, y, positions) ← getGlyphPositions_loop pos 0 (x this) (y this) positions;
    positions ← array_store positions (2 * i) x;
    array_store positions (2 * i + 1) y.

(** The loop of [getGlyphPosition]: [n] more rounds from index [i] on. *)
Fixpoint getGlyphPosition_loop (pos : list hb_glyph_t) (i n : nat) (x y : float)
    : option (float * float) :=
  match n with
  | O => Some (x, y)
  | S n' =>
      g ← pos !! i;
      getGlyphPosition_loop pos (S i) n'
        (fadd x (to_float (x_advance (HarfBuzz.pos g))))
        (fadd y (to_float (y_advance (HarfBuzz.pos g))))
  end.

(** [x0], [y0] are what the two [float &] arguments hold on entry; the
    result is what they hold on return. *)
Definition getGlyphPosition (this : LayoutEngine) (glyphIndex : Z) (x0 y0 : float)
    (success : LEErrorCode) : option (float * float) :=
  if LE_FAILURE success then Some (x0, y0)
  else
    let '(pos, count) := hb_buffer_get_glyph_positions (fHbBuffer this) in
    '(x, y) ← getGlyphPosition_loop pos 0 (Z.to_nat (to_uint32 glyphIndex)) (x this) (y this);
    if decide (glyphIndex < 0) then None
    else
      g ← pos !! Z.to_nat glyphIndex;
      Some (fadd x (to_float (x_offset (HarfBuzz.pos g))),
            fadd y (to_float (y_offset (HarfBuzz.pos g)))).

(** The argument check of [layoutChars]; [chars] is [None] for a null
    pointer. The sum is the [le_int32] sum. *)
Definition illegal_arguments (chars : option (list Z)) (offset count max : Z) : bool :=
  bool_decide (chars = None) || (offset <? 0) || (count <? 0) || (max <? 0)
  || (offset >=? max) || (add32 offset count >? max).

(** Lines 264 to 270 of [layoutChars]: the buffer handed to [hb_shape]. *)
Definition layoutChars_buffer (this : LayoutEngine) (chars : list Z)
    (offset count max : Z) (rightToLeft : bool) : option hb_buffer_t :=
  let b := hb_buffer_set_direction (fHbBuffer this)
             (if rightToLeft then HB_DIRECTION_RTL else HB_DIRECTION_LTR) in
  let b := hb_buffer_set_length b 0 in
  let b := hb_buffer_set_flags b
             (Z.lor (if offset =? 0 then HB_BUFFER_FLAG_BOT else 0)
                    (if add32 offset count =? max then HB_BUFFER_FLAG_EOT else 0)) in
  b ← hb_buffer_add_utf16 b chars max offset 0;
  hb_buffer_add_utf16 b (drop (Z.to_nat offset) chars) (sub32 max offset) 0 count.

Definition layoutChars `{Shaper} (this : LayoutEngine) (chars : option (list Z))
    (offset count max : Z) (rightToLeft : bool) (x0 y0 : float) (success : LEErrorCode)
    : option (LayoutEngine * Z * LEErrorCode) :=
  if LE_FAILURE success then Some (this, 0, success)
  else if illegal_arguments chars offset count max
  then Some (this, 0, LE_ILLEGAL_ARGUMENT_ERROR)
  else
    chars ← chars;
    let this := {| fHbFont := fHbFont this; fHbBuffer := fHbBuffer this;
                   fTypoFlags := fTypoFlags this; x := x0; y := y0 |} in
    b ← layoutChars_buffer this chars offset count max rightToLeft;
    b ← hb_shape (fHbFont this) b;
    let this := {| fHbFont := fHbFont this; fHbBuffer := b;
                   fTypoFlags := fTypoFlags this; x := x this; y := y this |} in
    Some (this, to_int32 (Z.of_nat (hb_buffer_get_length (fHbBuffer this))), success).

Definition reset (this : LayoutEngine) : LayoutEngine :=
  {| fHbFont := fHbFont this; fHbBuffer := hb_buffer_set_length (fHbBuffer this) 0;
     fTypoFlags := fTypoFlags this; x := float_of_int 0; y := float_of_int 0 |}.

(** [object_allocated] tells whether [new] found storage for the object:
    when it did not, the [new] expression is a null pointer and no
    constructor runs, the case that the test of line 303 is there for. *)
Definition layoutEngineFactory_typoFlags `{Shaper} (object_allocated : bool)
    (alloc : hb_alloc) (raw_x raw_y : float)
    (fontInstance : LEFontInstance) (scriptCode languageCode typoFlags : Z)
    (success : LEErrorCode) : option (option LayoutEngine * LEErrorCode) :=
  if LE_FAILURE success then Some (None, success)
  else
    '(result, success) ←
      (if object_allocated
       then LayoutEngine_ctor alloc raw_x raw_y fontInstance
              scriptCode languageCode typoFlags success
       else Some (None, success));
    let result := if LE_FAILURE success then None else result in
    let success := match result with None => LE_MEMORY_ALLOCATION_ERROR | Some _ => success end in
    Some (result, success).

Definition layoutEngineFactory `{Shaper} (object_allocated : bool)
    (alloc : hb_alloc) (raw_x raw_y : float)
    (fontInstance : LEFontInstance) (scriptCode languageCode : Z)
    (success : LEErrorCode) : option (option LayoutEngine * LEErrorCode) :=
  layoutEngineFactory_typoFlags object_allocated alloc raw_x raw_y fontInstance
    scriptCode languageCode 3 success.

(** ** The spec's account of the pen

    "Pen starts at the session's stored origin"; "advance the pen by the
    glyph's advance": the pen after the first [k] glyphs. *)

Definition advance_pen (pen : float * float) (g : hb_glyph_t) : float * float :=
  (fadd (fst pen) (to_float (x_advance (pos g))),
   fadd (snd pen) (to_float (y_advance (pos g)))).

Definition pen_after (this : LayoutEngine) (k : nat) : float * float :=
  foldl advance_pen (x this, y this) (take k (glyphs (fHbBuffer this))).

(** A buffer flag is set. *)
Definition flag_set (fl flag : Z) : bool := negb (Z.land fl flag =? 0).

(** ** The buffer handed to the shaper, in closed form

    What lines 264 to 270 make of the buffer on a valid call: direction
    from [rightToLeft]; the two boundary flags; the span
    [[offset, offset + count)] as the text to shape, numbered from the
    start of the span; what precedes it and what follows it, up to [max],
    as context. *)

Definition shaping_input (this : LayoutEngine) (chars : list Z) (offset count max : Z)
    (rightToLeft : bool) : hb_buffer_t :=
  let b := fHbBuffer this in
  {| unicode_funcs := unicode_funcs b; script := script b;
     direction := if rightToLeft then HB_DIRECTION_RTL else HB_DIRECTION_LTR;
     flags := Z.lor (if offset =? 0 then HB_BUFFER_FLAG_BOT else 0)
                    (if offset + count =? max then HB_BUFFER_FLAG_EOT else 0);
     replacement := replacement b;
     glyphs := unshaped <$> utf16_next (replacement b) 0
                              (take (Z.to_nat count) (drop (Z.to_nat offset) chars));
     context_pre :=
       if decide (0 < offset)
       then take CONTEXT_LENGTH
              (utf16_prev (replacement b) (reverse (take (Z.to_nat offset) chars)))
       else [];
     context_post :=
       take CONTEXT_LENGTH
         (codepoint <$> utf16_next (replacement b) 0
            (drop (Z.to_nat count)
               (take (Z.to_nat (max - offset)) (drop (Z.to_nat offset) chars)))) |}.

(** ** A font and a shaper to run the code on

    The font maps a character to its code minus 29, gives every glyph an
    advance of ten device units and four contour points. The shaper turns
    every code point into one glyph through the font callbacks, in
    reading order reversed for right-to-left text. *)

Module Fixture.

Definition ten : float := float_of_int 10.
Definition one : float := float_of_int 1.

Definition font : LEFontInstance :=
  {| getFontTable := fun _ => None;
     mapCharToGlyph := fun c => c - 29;
     getGlyphAdvance := fun _ => {| fX := ten; fY := fzero |};
     getGlyphPoint := fun _ i =>
       if (0 <=? i) && (i <? 4)
       then (true, {| fX := float_of_int i; fY := one |})
       else (false, {| fX := ten; fY := ten |});
     getXPixelsPerEm := float_of_int 12;
     getYPixelsPerEm := float_of_int 12;
     getScaleFactorX := one;
     getScaleFactorY := one |}.

(** Twelve and a half, and [font] at that many pixels per em. *)
Definition twelve_and_a_half : float := S754_finite false 13107200 (-20).

Definition font_half : LEFontInstance :=
  {| getFontTable := getFontTable font;
     mapCharToGlyph := mapCharToGlyph font;
     getGlyphAdvance := getGlyphAdvance font;
     getGlyphPoint := getGlyphPoint font;
     getXPixelsPerEm := twelve_and_a_half;
     getYPixelsPerEm := twelve_and_a_half;
     getScaleFactorX := one;
     getScaleFactorY := one |}.

Definition shape_glyph (f : hb_font_t) (g : hb_glyph_t) : option hb_glyph_t :=
  match klass f, font_data f with
  | Some k, Some d =>
      '(_, h) ← glyph_func k d (codepoint (info g)) 0 1 ∅;
      let gid := default 0 (h !! 1) in
      adv ← glyph_h_advance_func k d gid;
      Some {| info := {| codepoint := gid; cluster := cluster (info g) |};
              pos := {| x_advance := adv; y_advance := 0; x_offset := 0; y_offset := 0 |} |}
  | _, _ => Some {| info := {| codepoint := 0; cluster := cluster (info g) |};
                    pos := zero_position |}
  end.

Definition shape (f : hb_font_t) (b : hb_buffer_t) : option hb_buffer_t :=
  gs ← mapM (shape_glyph f) (glyphs b);
  Some {| unicode_funcs := unicode_funcs b; script := script b; direction := direction b;
          flags := flags b; replacement := replacement b;
          glyphs := match direction b with HB_DIRECTION_RTL => reverse gs | _ => gs end;
          context_pre := context_pre b; context_post := context_post b |}.

#[export] Instance shaper : Shaper :=
  {| hb_shape := shape; hb_icu_script_to_script := fun s => s |}.

Definition alloc_ok : hb_alloc := {| buffer_allocated := true; font_allocated := true |}.

(** "Hello" *)
Definition hello : list Z := [72; 101; 108; 108; 111].

(** The session the constructor yields for [font] on zeroed storage. *)
Definition engine : LayoutEngine :=
  {| fHbFont := {| face := icu_le_hb_reference_table font;
                   klass := Some icu_le_hb_get_font_funcs;
                   font_data := Some font;
                   x_scale := 3072; y_scale := -3072; x_ppem := 12; y_ppem := 12 |};
     fHbBuffer := hb_buffer_set_script
                    (hb_buffer_set_unicode_funcs hb_buffer_create hb_icu_get_unicode_funcs) 25;
     fTypoFlags := 3; x := fzero; y := fzero |}.

(** The same session after "ell" of "Hello" went through [shape]. *)
Definition engine_ell : LayoutEngine :=
  {| fHbFont := fHbFont engine;
     fHbBuffer :=
       {| unicode_funcs := hb_icu_unicode_funcs; script := 25;
          direction := HB_DIRECTION_LTR; flags := 0; replacement := 65533;
          glyphs :=
            [ {| info := {| codepoint := 72; cluster := 0 |};
                 pos := {| x_advance := 2560; y_advance := 0; x_offset := 0; y_offset := 0 |} |};
              {| info := {| codepoint := 79; cluster := 1 |};
                 pos := {| x_advance := 2560; y_advance := 0; x_offset := 0; y_offset := 0 |} |};
              {| info := {| codepoint := 79; cluster := 2 |};
                 pos := {| x_advance := 2560; y_advance := 0; x_offset := 0; y_offset := 0 |} |} ];
          context_pre := [72]; context_post := [111] |};
     fTypoFlags := 3; x := fzero; y := fzero |}.

End Fixture.

(** * Properties *)

(** ** IEEE 754 binary32: when rounding is exact *)

(** The Corelib names that unfolding [SpecFloat] brings up, turned into the
    ones the arithmetic lemmas are stated with. *)
Ltac stdlib_names :=
  change IntDef.Z.add with Z.add in *;
  change IntDef.Z.sub with Z.sub in *;
  change IntDef.Z.opp with Z.opp in *;
  change IntDef.Z.mul with Z.mul in *;
  change IntDef.Z.max with Z.max in *;
  change IntDef.Z.min with Z.min in *;
  change IntDef.Z.leb with Z.leb in *;
  change IntDef.Z.eqb with Z.eqb in *;
  change (@PosDef.Pos.iter) with (@Pos.iter) in *.

Section SpecFloatFacts.

Variables prec emax : Z.

Lemma iter_pos_iter {A : Type} (f : A -> A) (n : positive) (a : A) :
  SpecFloat.iter_pos f n a = Pos.iter f a n.
Proof.
  revert a. induction n as [n IH | n IH |]; intros a; simpl.
  - rewrite !IH. rewrite <- !Pos.iter_swap. reflexivity.
  - rewrite !IH. reflexivity.
  - reflexivity.
Qed.

Lemma digits2_pos_bounds (p : positive) :
  2 ^ (Zpos (digits2_pos p) - 1) <= Zpos p < 2 ^ Zpos (digits2_pos p).
Proof.
  induction p as [p IH | p IH |]; simpl digits2_pos.
  - rewrite Pos2Z.inj_succ.
    replace (Z.succ (Zpos (digits2_pos p)) - 1) with (Z.succ (Zpos (digits2_pos p) - 1)) by lia.
    rewrite !Z.pow_succ_r by lia. lia.
  - rewrite Pos2Z.inj_succ.
    replace (Z.succ (Zpos (digits2_pos p)) - 1) with (Z.succ (Zpos (digits2_pos p) - 1)) by lia.
    rewrite !Z.pow_succ_r by lia. lia.
  - simpl. lia.
Qed.

Lemma digits2_pos_shl (m d : positive) :
  digits2_pos (Pos.iter xO m d) = (digits2_pos m + d)%positive.
Proof.
  induction d as [| d IH] using Pos.peano_ind.
  - simpl. lia.
  - rewrite Pos.iter_succ. simpl. rewrite IH. lia.
Qed.

Lemma Zpos_shl (m d : positive) : Zpos (Pos.iter xO m d) = Zpos m * 2 ^ Zpos d.
Proof.
  induction d as [| d IH] using Pos.peano_ind.
  - simpl. lia.
  - rewrite Pos.iter_succ, Pos2Z.inj_succ, Z.pow_succ_r by lia.
    rewrite Pos2Z.inj_xO, IH. lia.
Qed.

Lemma shr_exact (q n : positive) :
  SpecFloat.iter_pos shr_1 n {| shr_m := Zpos (Pos.iter xO q n); shr_r := false; shr_s := false |}
  = {| shr_m := Zpos q; shr_r := false; shr_s := false |}.
Proof.
  rewrite iter_pos_iter.
  induction n as [| n IH] using Pos.peano_ind.
  - reflexivity.
  - rewrite Pos.iter_succ. rewrite Pos.iter_succ, <- Pos.iter_swap. simpl shr_1. exact IH.
Qed.

Lemma binary_round_aux_canonical (s : bool) (m : positive) (e : Z) :
  canonical_mantissa prec emax m e = true ->
  binary_round_aux prec emax s (Zpos m) e loc_Exact
  = if e <=? emax - prec then S754_finite s m e else S754_infinity s.
Proof.
  unfold canonical_mantissa. intros Hc%Z.eqb_eq.
  unfold binary_round_aux, shr_fexp. simpl Zdigits2.
  rewrite Hc, Z.sub_diag. simpl. rewrite Hc, Z.sub_diag. simpl. reflexivity.
Qed.

Lemma shl_pos_value (m : positive) (k : Z) : 0 <= k -> Zpos (shl_pos m k) = Zpos m * 2 ^ k.
Proof.
  destruct k as [| d | d]; simpl shl_pos; intros Hk.
  - simpl. lia.
  - apply Zpos_shl.
  - lia.
Qed.

Lemma shl_pos_digits (m : positive) (k : Z) :
  0 <= k -> Zpos (digits2_pos (shl_pos m k)) = Zpos (digits2_pos m) + k.
Proof.
  destruct k as [| d | d]; simpl shl_pos; intros Hk.
  - lia.
  - rewrite digits2_pos_shl. lia.
  - lia.
Qed.

Lemma shl_align_le (m : positive) (e e' : Z) :
  e' <= e -> shl_align m e e' = (shl_pos m (e - e'), e').
Proof.
  intros He. unfold shl_align, shl_pos.
  destruct (e' - e) as [| d | d] eqn:Hd.
  - replace (e - e') with 0 by lia. f_equal. lia.
  - lia.
  - replace (e - e') with (Zpos d) by lia. reflexivity.
Qed.

(** Rounding a value that needs no right shift is exact. *)
Lemma binary_round_shl (s : bool) (m : positive) (e : Z) :
  fexp prec emax (Zpos (digits2_pos m) + e) <= e ->
  binary_round prec emax s m e
  = let e' := fexp prec emax (Zpos (digits2_pos m) + e) in
    if e' <=? emax - prec then S754_finite s (shl_pos m (e - e')) e' else S754_infinity s.
Proof.
  intros He. unfold binary_round. rewrite shl_align_le by exact He.
  cbv zeta. apply binary_round_aux_canonical.
  unfold canonical_mantissa. apply Z.eqb_eq.
  rewrite shl_pos_digits by lia. f_equal. lia.
Qed.

(** Rounding away [n] zero bits is exact. *)
Lemma binary_round_shr (s : bool) (q n : positive) (e : Z) :
  fexp prec emax (Zpos (digits2_pos (Pos.iter xO q n)) + e) = e + Zpos n ->
  binary_round prec emax s (Pos.iter xO q n) e
  = if e + Zpos n <=? emax - prec then S754_finite s q (e + Zpos n) else S754_infinity s.
Proof.
  intros He. unfold binary_round, shl_align. rewrite He.
  assert (Hx : e + Zpos n - e = Zpos n) by lia. stdlib_names. rewrite Hx.
  unfold binary_round_aux, shr_fexp. simpl Zdigits2. stdlib_names. rewrite He, Hx.
  simpl shr_record_of_loc. unfold shr at 1. rewrite shr_exact.
  simpl loc_of_shr_record. simpl round_nearest_even. simpl Zdigits2. stdlib_names.
  assert (Hq : fexp prec emax (Zpos (digits2_pos q) + (e + Zpos n)) = e + Zpos n).
  { etransitivity; [| exact He]. f_equal. rewrite digits2_pos_shl. lia. }
  rewrite Hq, Z.sub_diag. simpl. reflexivity.
Qed.

End SpecFloatFacts.

Lemma fexp32_normal (e : Z) : -125 <= e -> fexp prec emax e = e - 24.
Proof. unfold fexp, SpecFloat.emin, prec, emax. lia. Qed.

Lemma scalblnf_normal (s : bool) (m : positive) (e n : Z) :
  Zpos (digits2_pos m) = 24 -> -149 <= e + n <= 104 ->
  scalblnf (S754_finite s m e) n = S754_finite s m (e + n).
Proof.
  intros Hd He. unfold scalblnf, SFldexp.
  assert (Hf : fexp prec emax (Zpos (digits2_pos m) + (e + n)) = e + n).
  { rewrite Hd, fexp32_normal by lia. lia. }
  rewrite binary_round_shl by (rewrite Hf; lia).
  cbv zeta. rewrite Hf, Z.sub_diag. simpl shl_pos.
  change (emax - prec) with 104. destruct (Z.leb_spec (e + n) 104); [reflexivity | lia].
Qed.

Lemma digits2_pos_log2 (p : positive) : Zpos (digits2_pos p) = Z.log2 (Zpos p) + 1.
Proof.
  pose proof (digits2_pos_bounds p) as Hb.
  symmetry. apply Z.add_move_r. apply Z.log2_unique; [lia |].
  replace (Z.succ (Zpos (digits2_pos p) - 1)) with (Zpos (digits2_pos p)) by lia.
  exact Hb.
Qed.

Lemma digits2_pos_le (p : positive) (k : Z) :
  0 <= k -> Zpos p < 2 ^ k -> Zpos (digits2_pos p) <= k.
Proof.
  intros Hk Hp. pose proof (digits2_pos_bounds p) as [Hb _].
  destruct (Z.le_gt_cases (Zpos (digits2_pos p)) k) as [| Hgt]; [assumption |].
  assert (2 ^ k <= 2 ^ (Zpos (digits2_pos p) - 1)) by (apply Z.pow_le_mono_r; lia).
  lia.
Qed.

Lemma float_of_int_pos (s : bool) (p : positive) :
  Zpos p <= 2 ^ 31 ->
  significant_bits_ok (Zpos p) = true ->
  exists m e,
    binary_round prec emax s p 0 = S754_finite s m e
    /\ Zpos (digits2_pos m) = 24 /\ -23 <= e <= 8 /\ exactly m e (Zpos p).
Proof.
  intros Hr Hs.
  unfold significant_bits_ok in Hs. apply Z.eqb_eq in Hs.
  change (Z.abs (Zpos p)) with (Zpos p) in Hs.
  rewrite <- digits2_pos_log2 in Hs.
  set (d := Zpos (digits2_pos p)) in *.
  assert (Hd1 : 1 <= d) by (unfold d; lia).
  assert (Hd2 : d <= 32).
  { apply digits2_pos_le; [lia |]. change (2 ^ 32) with (2 * 2 ^ 31). lia. }
  assert (Hf : fexp prec emax (d + 0) = d - 24) by (rewrite fexp32_normal; lia).
  destruct (Z.le_gt_cases d 24) as [Hle | Hgt].
  - exists (shl_pos p (24 - d)), (d - 24).
    rewrite binary_round_shl by (fold d; rewrite Hf; lia).
    cbv zeta. fold d. rewrite Hf.
    replace (0 - (d - 24)) with (24 - d) by lia.
    change (emax - prec) with 104.
    destruct (Z.leb_spec (d - 24) 104); [| lia].
    split; [reflexivity |]. split.
    { rewrite shl_pos_digits by lia. fold d. lia. }
    split; [lia |].
    unfold exactly. rewrite shl_pos_value by lia.
    replace (Z.max 0 (d - 24)) with 0 by lia.
    replace (Z.max 0 (- (d - 24))) with (24 - d) by lia. simpl (2 ^ 0). lia.
  - unfold prec in Hs. replace (Z.max 0 (d - 24)) with (d - 24) in Hs by lia.
    apply Z.mod_divide in Hs; [| lia]. destruct Hs as [q Hq].
    assert (Hqpos : 0 < q).
    { assert (0 < 2 ^ (d - 24)) by (apply Z.pow_pos_nonneg; lia). nia. }
    destruct q as [| q | q]; try lia.
    destruct (d - 24) as [| n | n] eqn:Hn; try lia.
    assert (Hp : p = Pos.iter xO q n).
    { apply Pos2Z.inj. rewrite Zpos_shl. exact Hq. }
    exists q, (Zpos n).
    assert (Hfe : fexp prec emax (Zpos (digits2_pos (Pos.iter xO q n)) + 0) = 0 + Zpos n).
    { rewrite <- Hp. fold d. rewrite Hf. lia. }
    rewrite Hp at 1. rewrite binary_round_shr by exact Hfe.
    change (emax - prec) with 104.
    destruct (Z.leb_spec (0 + Zpos n) 104); [| lia].
    split; [reflexivity |]. split.
    { assert (Hdq : d = Zpos (digits2_pos q) + Zpos n).
      { unfold d. rewrite Hp, digits2_pos_shl. lia. }
      lia. }
    split; [lia |].
    unfold exactly.
    replace (Z.max 0 (Zpos n)) with (Zpos n) by lia.
    replace (Z.max 0 (- Zpos n)) with 0 by lia. simpl (2 ^ 0). lia.
Qed.

Lemma shiftl_exactly (m : positive) (e a : Z) : exactly m e a -> Z.shiftl (Zpos m) e = a.
Proof.
  unfold exactly. intros H. destruct (Z.le_gt_cases 0 e) as [He | He].
  - rewrite Z.shiftl_mul_pow2 by lia.
    replace (Z.max 0 e) with e in H by lia.
    replace (Z.max 0 (- e)) with 0 in H by lia. simpl (2 ^ 0) in H. lia.
  - rewrite Z.shiftl_div_pow2 by lia.
    replace (Z.max 0 e) with 0 in H by lia.
    replace (Z.max 0 (- e)) with (- e) in H by lia. simpl (2 ^ 0) in H.
    replace (Zpos m) with (a * 2 ^ (- e)) by lia.
    apply Z.div_mul. apply Z.pow_nonzero; lia.
Qed.

Lemma in_int32_spec (z : Z) : in_int32 z = true <-> - 2 ^ 31 <= z < 2 ^ 31.
Proof. unfold in_int32, min_int32, max_int32. rewrite andb_true_iff, !Z.leb_le. lia. Qed.

Lemma float_of_int_exact (v : Z) :
  v <> 0 -> representable v = true ->
  exists m e,
    float_of_int v = S754_finite (v <? 0) m e
    /\ Zpos (digits2_pos m) = 24 /\ -23 <= e <= 8 /\ exactly m e (Z.abs v).
Proof.
  unfold representable. rewrite andb_true_iff, in_int32_spec. intros Hv [Hr Hs].
  destruct v as [| p | p]; [congruence | |].
  - apply (float_of_int_pos false p); [simpl; lia | exact Hs].
  - apply (float_of_int_pos true p); [lia | exact Hs].
Qed.

Lemma to_float_exact (v : Z) :
  v <> 0 -> representable v = true ->
  exists m e,
    to_float v = S754_finite (v <? 0) m (e + -8)
    /\ Zpos (digits2_pos m) = 24 /\ -23 <= e <= 8 /\ exactly m e (Z.abs v).
Proof.
  intros Hv Hr. destruct (float_of_int_exact v Hv Hr) as (m & e & Hf & Hd & He & Hx).
  exists m, e. unfold to_float. rewrite Hf, scalblnf_normal by lia. auto.
Qed.

Lemma cond_Zopp_abs (v : Z) : cond_Zopp (v <? 0) (Z.abs v) = v.
Proof. unfold cond_Zopp. destruct (Z.ltb_spec v 0); lia. Qed.

Lemma from_float_to_float (v : Z) :
  representable v = true -> from_float (to_float v) = Some v.
Proof.
  intros Hr. destruct (Z.eq_dec v 0) as [-> | Hv]; [reflexivity |].
  destruct (to_float_exact v Hv Hr) as (m & e & Hf & Hd & He & Hx).
  unfold from_float. rewrite Hf, scalblnf_normal by lia.
  replace (e + -8 + 8) with e by lia.
  unfold int_of_float. rewrite (shiftl_exactly m e _ Hx), cond_Zopp_abs.
  unfold representable in Hr. apply andb_true_iff in Hr as [-> _]. reflexivity.
Qed.

Section DyadicRationals.

Local Open Scope Q_scope.

Lemma Qpower_2_nonneg (k : Z) : (0 <= k)%Z -> inject_Z (2 ^ k) == 2 ^ k.
Proof. intros Hk. rewrite Zpower_Qpower by exact Hk. reflexivity. Qed.

Lemma exactly_Q (m : positive) (e a : Z) :
exactly m e a -> inject_Z (Zpos m) * 2 ^ e == inject_Z a.
Proof.
unfold exactly. intros H. destruct (Z.le_gt_cases 0 e) as [He | He].
- replace (Z.max 0 e) with e in H by lia.
  replace (Z.max 0 (- e)) with 0%Z in H by lia.
  rewrite <- Qpower_2_nonneg by exact He.
  rewrite <- inject_Z_mult. rewrite H. simpl (2 ^ 0)%Z. rewrite Z.mul_1_r. reflexivity.
- replace (Z.max 0 e) with 0%Z in H by lia.
  replace (Z.max 0 (- e)) with (- e)%Z in H by lia.
  simpl (2 ^ 0)%Z in H. rewrite Z.mul_1_r in H. rewrite H.
  rewrite inject_Z_mult, Qpower_2_nonneg by lia.
  replace e with (- - e)%Z at 2 by lia. rewrite (Qpower_opp 2 (- e)).
  rewrite <- Qmult_assoc, Qmult_inv_r; [apply Qmult_1_r |].
  apply Qpower_not_0. discriminate.
Qed.

Lemma SF2Q_to_float (v : Z) :
representable v = true -> SF2Q (to_float v) == inject_Z v / 256.
Proof.
intros Hr. destruct (Z.eq_dec v 0%Z) as [-> | Hv]; [reflexivity |].
destruct (to_float_exact v Hv Hr) as (m & e & Hf & Hd & He & Hx).
rewrite Hf. unfold SF2Q.
rewrite Qpower_plus by discriminate.
apply exactly_Q in Hx.
assert (Hs : inject_Z (cond_Zopp (v <? 0)%Z (Zpos m)) * 2 ^ e == inject_Z v).
{ rewrite <- (cond_Zopp_abs v) at 2. unfold cond_Zopp. destruct (v <? 0)%Z.
  - rewrite !inject_Z_opp. rewrite <- Hx. ring.
  - exact Hx. }
rewrite Qmult_assoc, Hs. reflexivity.
Qed.

End DyadicRationals.

Lemma Q_dyadic_eq (a b k : Z) :
  (inject_Z a * 2 ^ k == inject_Z b)%Q -> a * 2 ^ Z.max 0 k = b * 2 ^ Z.max 0 (- k).
Proof.
  intros H. destruct (Z.le_gt_cases 0 k) as [Hk | Hk].
  - replace (Z.max 0 k) with k by lia. replace (Z.max 0 (- k)) with 0 by lia.
    rewrite <- Qpower_2_nonneg, <- inject_Z_mult in H by exact Hk.
    apply (proj1 (inject_Z_injective _ _)) in H. simpl (2 ^ 0). lia.
  - replace (Z.max 0 k) with 0 by lia. replace (Z.max 0 (- k)) with (- k) by lia.
    simpl (2 ^ 0). rewrite Z.mul_1_r.
    apply (proj1 (inject_Z_injective _ _)). rewrite inject_Z_mult, Qpower_2_nonneg by lia.
    rewrite <- H. replace k with (- - k) at 1 by lia. rewrite (Qpower_opp 2 (- k)).
    rewrite <- Qmult_assoc, (Qmult_comm (/ _)), Qmult_inv_r; [symmetry; apply Qmult_1_r |].
    apply Qpower_not_0. discriminate.
Qed.

Lemma valid_finite_canonical (s : bool) (m : positive) (e : Z) :
  valid_binary prec emax (S754_finite s m e) = true ->
  fexp prec emax (Zpos (digits2_pos m) + e) = e /\ e <= 104.
Proof.
  simpl. unfold bounded, canonical_mantissa. rewrite andb_true_iff, Z.eqb_eq, Z.leb_le.
  change (emax - prec) with 104. auto.
Qed.

(** On a float whose 256-fold is an integer of 32 bits, [from_float] is
    that integer. *)
Lemma from_float_exact (f : float) (z : Z) :
  valid_binary prec emax f = true -> is_finite f = true -> in_int32 z = true ->
  (SF2Q f * 256 == inject_Z z)%Q ->
  from_float f = Some z.
Proof.
  intros Hv Hfin Hz Hq. destruct f as [s | s | | s m e]; try discriminate.
  - simpl in Hq. assert (z = 0) as ->; [| reflexivity].
    apply (proj1 (inject_Z_injective _ _)). rewrite <- Hq. reflexivity.
  - apply valid_finite_canonical in Hv as [Hc He].
    unfold SF2Q in Hq.
    assert (Hq' : (inject_Z (cond_Zopp s (Zpos m)) * 2 ^ (e + 8) == inject_Z z)%Q).
    { rewrite Qpower_plus by discriminate. rewrite Qmult_assoc. exact Hq. }
    apply Q_dyadic_eq in Hq'.
    assert (HP : 0 < 2 ^ Z.max 0 (e + 8)) by (apply Z.pow_pos_nonneg; lia).
    assert (HQ : 0 < 2 ^ Z.max 0 (- (e + 8))) by (apply Z.pow_pos_nonneg; lia).
    assert (Hsz : z = cond_Zopp s (Z.abs z) /\ exactly m (e + 8) (Z.abs z)).
    { unfold exactly, cond_Zopp in *. destruct s; split; nia. }
    destruct Hsz as [Hsz Hx].
    apply in_int32_spec in Hz.
    pose proof (digits2_pos_bounds m) as [Hlo _].
    set (d := Zpos (digits2_pos m)) in *.
    assert (Hd : d + e + 8 <= 32).
    { destruct (Z.le_gt_cases (d + e + 8) 32) as [| Hgt]; [assumption | exfalso].
      assert (Habs : Z.abs z <= 2 ^ 31) by lia.
      unfold exactly in Hx.
      assert (He8 : 0 <= e + 8).
      { unfold fexp, SpecFloat.emin, prec, emax in Hc. lia. }
      replace (Z.max 0 (e + 8)) with (e + 8) in Hx by lia.
      replace (Z.max 0 (- (e + 8))) with 0 in Hx by lia.
      simpl (2 ^ 0) in Hx.
      assert (2 ^ 32 <= 2 ^ (d - 1) * 2 ^ (e + 8)).
      { rewrite <- Z.pow_add_r by (unfold d; lia). apply Z.pow_le_mono_r; lia. }
      assert (2 ^ (d - 1) * 2 ^ (e + 8) <= Zpos m * 2 ^ (e + 8)) by nia.
      change (2 ^ 32) with (2 * 2 ^ 31) in *. lia. }
    unfold from_float, scalblnf, SFldexp.
    assert (Hf : fexp prec emax (d + (e + 8)) <= e + 8).
    { unfold fexp, SpecFloat.emin, prec, emax in *. lia. }
    rewrite binary_round_shl by exact Hf. cbv zeta. fold d.
    set (e' := fexp prec emax (d + (e + 8))) in *.
    change (emax - prec) with 104.
    destruct (Z.leb_spec e' 104) as [_ | Hbig].
    2:{ unfold e', fexp, SpecFloat.emin, prec, emax in Hbig. lia. }
    unfold int_of_float.
    assert (Hsh : Z.shiftl (Zpos (shl_pos m (e + 8 - e'))) e' = Z.abs z).
    { rewrite shl_pos_value by lia. rewrite <- Z.shiftl_mul_pow2 by lia.
      rewrite Z.shiftl_shiftl by lia. replace (e + 8 - e' + e') with (e + 8) by lia.
      apply shiftl_exactly. exact Hx. }
    rewrite Hsh, <- Hsz.
    destruct (in_int32 z) eqn:Hin; [reflexivity |].
    apply in_int32_spec in Hz. congruence.
Qed.

(** The integers that [float] holds are those with a mantissa below
    [2^24]. *)
Lemma significant_bits_ok_spec (v : Z) :
  significant_bits_ok v = true <-> exists m k, 0 <= k /\ Z.abs m < 2 ^ 24 /\ v = m * 2 ^ k.
Proof.
  unfold significant_bits_ok, prec. rewrite Z.eqb_eq. split.
  - intros Hs. destruct (Z.eq_dec v 0) as [-> | Hv].
    { exists 0, 0. simpl. lia. }
    set (d := Z.log2 (Z.abs v) + 1) in *.
    assert (Hlog : 2 ^ (d - 1) <= Z.abs v < 2 ^ d).
    { unfold d. replace (Z.log2 (Z.abs v) + 1 - 1) with (Z.log2 (Z.abs v)) by lia.
      replace (Z.log2 (Z.abs v) + 1) with (Z.succ (Z.log2 (Z.abs v))) by lia.
      apply Z.log2_spec. lia. }
    destruct (Z.le_gt_cases d 24) as [Hle | Hgt].
    + exists v, 0. split; [lia |]. split; [| simpl; lia].
      assert (2 ^ d <= 2 ^ 24) by (apply Z.pow_le_mono_r; lia). lia.
    + replace (Z.max 0 (d - 24)) with (d - 24) in Hs by lia.
      apply Z.mod_divide in Hs; [| apply Z.pow_nonzero; lia].
      apply (proj1 (Z.divide_abs_r _ _)) in Hs. destruct Hs as [q Hq].
      exists q, (d - 24). split; [lia |]. split; [| exact Hq].
      assert (Hpow : 0 < 2 ^ (d - 24)) by (apply Z.pow_pos_nonneg; lia).
      assert (Hsplit : 2 ^ d = 2 ^ 24 * 2 ^ (d - 24)).
      { rewrite <- Z.pow_add_r by lia. f_equal. lia. }
      assert (Habs : Z.abs v = Z.abs q * 2 ^ (d - 24)).
      { rewrite Hq, Z.abs_mul, (Z.abs_eq (2 ^ (d - 24))) by lia. reflexivity. }
      nia.
  - intros (m & k & Hk & Hm & ->).
    destruct (Z.eq_dec m 0) as [-> | Hm0]; [simpl; apply Z.mod_0_l; apply Z.pow_nonzero; lia |].
    assert (Hpk : 0 < 2 ^ k) by (apply Z.pow_pos_nonneg; lia).
    rewrite Z.abs_mul, (Z.abs_eq (2 ^ k)) by lia.
    rewrite Z.log2_mul_pow2 by lia.
    assert (Hlm : Z.log2 (Z.abs m) < 24) by (apply Z.log2_lt_pow2; lia).
    set (j := Z.max 0 (k + Z.log2 (Z.abs m) + 1 - 24)).
    assert (Hj : 0 <= j <= k) by (unfold j; lia).
    replace (2 ^ k) with (2 ^ (k - j) * 2 ^ j).
    2:{ rewrite <- Z.pow_add_r by lia. f_equal. lia. }
    rewrite Z.mul_assoc. apply Z.mod_mul. apply Z.pow_nonzero; lia.
Qed.

Lemma representable_small (v : Z) : Z.abs v <= 2 ^ 24 -> representable v = true.
Proof.
  intros Hv. unfold representable. apply andb_true_iff. split.
  - apply in_int32_spec. change (2 ^ 31) with (128 * 2 ^ 24). lia.
  - apply significant_bits_ok_spec.
    destruct (Z.eq_dec v (2 ^ 24)) as [-> | Hp]; [exists 1, 24; simpl; lia |].
    destruct (Z.eq_dec v (- 2 ^ 24)) as [-> | Hn]; [exists (-1), 24; simpl; lia |].
    exists v, 0. simpl. lia.
Qed.

(** [representable] is representability in both spaces: a 32-bit integer
    [v] is representable exactly when some float of the format has the
    value [v / 256]. *)
Lemma representable_spec (v : Z) :
  representable v = true
  <-> in_int32 v = true
      /\ exists f, valid_binary prec emax f = true /\ is_finite f = true
                   /\ (SF2Q f * 256 == inject_Z v)%Q.
Proof.
  split.
  - intros Hr. split; [unfold representable in Hr; apply andb_true_iff in Hr; tauto |].
    exists (to_float v).
    destruct (Z.eq_dec v 0) as [-> | Hv]; [repeat split |].
    destruct (to_float_exact v Hv Hr) as (m & e & Hf & Hd & He & Hx).
    split; [| split].
    + rewrite Hf. simpl. unfold bounded, canonical_mantissa. apply andb_true_iff.
      rewrite Z.eqb_eq, Z.leb_le. rewrite Hd, fexp32_normal by lia.
      change (emax - prec) with 104. unfold prec. lia.
    + rewrite Hf. reflexivity.
    + rewrite (SF2Q_to_float v Hr). field.
  - intros [Hin (f & Hv & Hfin & Hq)]. unfold representable. rewrite Hin. simpl.
    apply significant_bits_ok_spec.
    destruct f as [s | s | | s m e]; try discriminate.
    { exists 0, 0. split; [lia |]. split; [reflexivity |].
      simpl in Hq. apply (proj1 (inject_Z_injective _ _)). rewrite <- Hq. reflexivity. }
    apply valid_finite_canonical in Hv as [Hc He].
    unfold SF2Q in Hq.
    assert (Hq' : (inject_Z (cond_Zopp s (Zpos m)) * 2 ^ (e + 8) == inject_Z v)%Q).
    { rewrite Qpower_plus by discriminate. rewrite Qmult_assoc. exact Hq. }
    apply Q_dyadic_eq in Hq'.
    pose proof (digits2_pos_bounds m) as [Hlo Hhi].
    assert (Hd : Zpos (digits2_pos m) <= 24).
    { unfold fexp, SpecFloat.emin, prec, emax in Hc. lia. }
    assert (Hm : Zpos m < 2 ^ 24).
    { assert (2 ^ Zpos (digits2_pos m) <= 2 ^ 24) by (apply Z.pow_le_mono_r; lia). lia. }
    destruct (Z.le_gt_cases 0 (e + 8)) as [Hpos | Hneg].
    + exists (cond_Zopp s (Zpos m)), (e + 8). split; [exact Hpos |]. split.
      * unfold cond_Zopp. destruct s; simpl; lia.
      * replace (Z.max 0 (e + 8)) with (e + 8) in Hq' by lia.
        replace (Z.max 0 (- (e + 8))) with 0 in Hq' by lia.
        simpl (2 ^ 0) in Hq'. lia.
    + exists v, 0. split; [lia |]. split; [| simpl; lia].
      replace (Z.max 0 (e + 8)) with 0 in Hq' by lia.
      replace (Z.max 0 (- (e + 8))) with (- (e + 8)) in Hq' by lia.
      simpl (2 ^ 0) in Hq'.
      assert (0 < 2 ^ (- (e + 8))) by (apply Z.pow_pos_nonneg; lia).
      unfold cond_Zopp in Hq'. destruct s; nia.
Qed.

(** Past 24 significant bits the conversion to [float] rounds. *)
Example round_trip_rounds : from_float (to_float (2 ^ 24 + 1)) = Some (2 ^ 24).
Proof. reflexivity. Qed.

(** ** The coordinate converter *)

(** C7. For every fixed-point value [v] that both coordinate spaces hold,
    converting to device units and back gives [v] again, exactly (so within
    one unit of the quantization); the device value is [v / 256], and it
    is a float of the format. *)
Theorem fixed_point_round_trip (v : Z) :
  representable v = true ->
  from_float (to_float v) = Some v
  /\ (SF2Q (to_float v) == inject_Z v / 256)%Q
  /\ (SF2Q (to_float v) * 256 == inject_Z v)%Q
  /\ is_finite (to_float v) = true
  /\ valid_binary prec emax (to_float v) = true.
Proof.
  intros Hr. split; [apply from_float_to_float; exact Hr |].
  split; [apply SF2Q_to_float; exact Hr |].
  split.
  { rewrite (SF2Q_to_float v Hr). field. }
  destruct (Z.eq_dec v 0) as [-> | Hv]; [split; reflexivity |].
  destruct (to_float_exact v Hv Hr) as (m & e & Hf & Hd & He & Hx).
  rewrite Hf. split; [reflexivity |].
  simpl. unfold bounded, canonical_mantissa. apply andb_true_iff.
  rewrite Z.eqb_eq, Z.leb_le. rewrite Hd, fexp32_normal by lia.
  change (emax - prec) with 104. unfold prec. lia.
Qed.

Lemma fixed_point_round_trip_witness :
  representable 640 = true
  /\ from_float (to_float 640) = Some 640
  /\ (SF2Q (to_float 640) == inject_Z 640 / 256)%Q.
Proof.
  split; [reflexivity |].
  destruct (fixed_point_round_trip 640) as (H1 & H2 & _); [reflexivity |].
  split; [exact H1 | exact H2].
Defined.

(** ** The font callbacks *)

Lemma poke_Some (p v : Z) (h : gmap Z Z) : p <> NULL -> poke p v h = Some (<[p := v]> h).
Proof. intros Hp. unfold poke. destruct (decide (p = NULL)); [contradiction | reflexivity]. Qed.

(** C10. Given somewhere to store it, the char-to-glyph callback stores
    the glyph the provider maps the character to and answers [true],
    whatever that glyph is, glyph 0 included. *)
Theorem icu_le_hb_font_get_glyph_true (font_data : LEFontInstance)
    (unicode variation_selector glyph : Z) (h : gmap Z Z) :
  glyph <> NULL ->
  icu_le_hb_font_get_glyph font_data unicode variation_selector glyph h
  = Some (true, <[glyph := mapCharToGlyph font_data unicode]> h).
Proof.
  intros Hg. unfold icu_le_hb_font_get_glyph. rewrite poke_Some by exact Hg. simpl.
  destruct (Z.eqb_spec glyph NULL); [contradiction | reflexivity].
Qed.

(** The character 29 has no glyph in the fixture font. *)
Lemma icu_le_hb_font_get_glyph_true_witness :
  (1 : Z) <> NULL
  /\ mapCharToGlyph Fixture.font 29 = 0
  /\ icu_le_hb_font_get_glyph Fixture.font 29 0 1 ∅ = Some (true, <[1 := 0]> ∅).
Proof.
  split; [discriminate |]. split; [reflexivity |].
  apply (icu_le_hb_font_get_glyph_true Fixture.font 29 0 1 ∅). discriminate.
Defined.

(** C9. When the provider has no such point the callback answers [false]
    and stores nothing; when it has, the callback answers [true] and
    stores the point's coordinates in fixed-point units. *)
Theorem icu_le_hb_font_get_glyph_contour_point_spec (font_data : LEFontInstance)
    (glyph point_index x y : Z) (h : gmap Z Z) (found : bool) (point : LEPoint) :
  getGlyphPoint font_data glyph (to_int32 point_index) = (found, point) ->
  (found = false ->
     icu_le_hb_font_get_glyph_contour_point font_data glyph point_index x y h = Some (false, h))
  /\ (forall vx vy : Z,
        found = true -> x <> NULL -> y <> NULL ->
        from_float (fX point) = Some vx -> from_float (fY point) = Some vy ->
        icu_le_hb_font_get_glyph_contour_point font_data glyph point_index x y h
        = Some (true, <[y := vy]> (<[x := vx]> h))).
Proof.
  intros Hp. unfold icu_le_hb_font_get_glyph_contour_point. rewrite Hp. split.
  - intros ->. reflexivity.
  - intros vx vy -> Hx Hy Hvx Hvy. simpl. rewrite Hvx. simpl.
    rewrite poke_Some by exact Hx. simpl. rewrite Hvy. simpl.
    rewrite poke_Some by exact Hy. reflexivity.
Qed.

Lemma icu_le_hb_font_get_glyph_contour_point_spec_witness :
  icu_le_hb_font_get_glyph_contour_point Fixture.font 7 9 1 2 ∅ = Some (false, ∅)
  /\ icu_le_hb_font_get_glyph_contour_point Fixture.font 7 3 1 2 ∅
     = Some (true, <[2 := 256]> (<[1 := 768]> ∅)).
Proof.
  split.
  - apply (icu_le_hb_font_get_glyph_contour_point_spec Fixture.font 7 9 1 2 ∅ false
             {| fX := Fixture.ten; fY := Fixture.ten |}); reflexivity.
  - apply (icu_le_hb_font_get_glyph_contour_point_spec Fixture.font 7 3 1 2 ∅ true
             {| fX := float_of_int 3; fY := Fixture.one |});
      first [reflexivity | discriminate].
Defined.

(** ** Construction *)

Lemma to_uint32_small (z : Z) : 0 <= z < 2 ^ 32 -> to_uint32 z = z.
Proof. intros Hz. unfold to_uint32. apply Z.mod_small. exact Hz. Qed.

Lemma to_int32_small (z : Z) : - 2 ^ 31 <= z < 2 ^ 31 -> to_int32 z = z.
Proof.
  intros Hz. unfold to_int32. rewrite Z.mod_small; [lia |].
  change (2 ^ 32) with (2 * 2 ^ 31). lia.
Qed.

Lemma neg32_Some (z : Z) : z <> min_int32 -> neg32 z = Some (- z).
Proof. intros Hz. unfold neg32. destruct (Z.eqb_spec z min_int32); [contradiction | reflexivity]. Qed.

Lemma neg32_None (z : Z) : neg32 z = None <-> z = min_int32.
Proof. unfold neg32. destruct (Z.eqb_spec z min_int32); split; congruence. Qed.

(** A whole number that [float] holds converts back to itself. *)
Lemma uint_of_float_float_of_int (v : Z) :
  0 <= v -> representable v = true -> uint_of_float (float_of_int v) = Some v.
Proof.
  intros H0 Hr. destruct (Z.eq_dec v 0) as [-> | Hv]; [reflexivity |].
  destruct (float_of_int_exact v Hv Hr) as (m & e & Hf & _ & _ & Hx).
  rewrite Hf. unfold uint_of_float. rewrite (shiftl_exactly m e _ Hx), cond_Zopp_abs.
  unfold representable in Hr. apply andb_true_iff in Hr as [Hr _].
  apply in_int32_spec in Hr.
  destruct (Z.leb_spec 0 v); [| lia].
  destruct (Z.ltb_spec v (2 ^ 32)); [reflexivity |].
  change (2 ^ 32) with (2 * 2 ^ 31) in *. lia.
Qed.

(** What the constructor builds on its successful path. *)
Lemma LayoutEngine_ctor_success `{Shaper} (alloc : hb_alloc) (raw_x raw_y : float)
    (fontInstance : LEFontInstance) (scriptCode languageCode typoFlags : Z)
    (success : LEErrorCode) (xs ys xp yp : Z) :
  LE_FAILURE success = false ->
  buffer_allocated alloc = true -> font_allocated alloc = true ->
  from_float (fmul (getXPixelsPerEm fontInstance) (getScaleFactorX fontInstance)) = Some xs ->
  from_float (fmul (getYPixelsPerEm fontInstance) (getScaleFactorY fontInstance)) = Some ys ->
  ys <> min_int32 ->
  uint_of_float (getXPixelsPerEm fontInstance) = Some xp ->
  uint_of_float (getYPixelsPerEm fontInstance) = Some yp ->
  LayoutEngine_ctor alloc raw_x raw_y fontInstance scriptCode languageCode typoFlags success
  = Some (Some {|
      fHbFont := {| face := icu_le_hb_reference_table fontInstance;
                    klass := Some icu_le_hb_get_font_funcs;
                    font_data := Some fontInstance;
                    x_scale := xs; y_scale := - ys;
                    x_ppem := xp; y_ppem := yp |};
      fHbBuffer := {| unicode_funcs := hb_icu_unicode_funcs;
                      script := hb_icu_script_to_script scriptCode;
                      direction := HB_DIRECTION_INVALID;
                      flags := HB_BUFFER_FLAG_DEFAULT; replacement := 65533;
                      glyphs := []; context_pre := []; context_post := [] |};
      fTypoFlags := typoFlags; x := raw_x; y := raw_y |}, success).
Proof.
  intros Hs Hb Hf Hxs Hys Hmin Hxp Hyp. unfold LayoutEngine_ctor.
  rewrite Hs, Hb, Hf. simpl. rewrite Hxs. simpl. rewrite Hys. simpl.
  rewrite (neg32_Some ys Hmin). simpl. rewrite Hxp. simpl. rewrite Hyp. reflexivity.
Qed.

(** A session comes out of the constructor only on that path. *)
Lemma LayoutEngine_ctor_session `{Shaper} (alloc : hb_alloc) (raw_x raw_y : float)
    (fontInstance : LEFontInstance) (scriptCode languageCode typoFlags : Z)
    (success success' : LEErrorCode) (this : LayoutEngine) :
  LayoutEngine_ctor alloc raw_x raw_y fontInstance scriptCode languageCode typoFlags success
  = Some (Some this, success') ->
  exists xs ys xp yp,
    LE_FAILURE success = false /\ success' = success
    /\ buffer_allocated alloc = true /\ font_allocated alloc = true
    /\ from_float (fmul (getXPixelsPerEm fontInstance) (getScaleFactorX fontInstance))
       = Some xs
    /\ from_float (fmul (getYPixelsPerEm fontInstance) (getScaleFactorY fontInstance))
       = Some ys
    /\ ys <> min_int32
    /\ uint_of_float (getXPixelsPerEm fontInstance) = Some xp
    /\ uint_of_float (getYPixelsPerEm fontInstance) = Some yp
    /\ this = {|
         fHbFont := {| face := icu_le_hb_reference_table fontInstance;
                       klass := Some icu_le_hb_get_font_funcs;
                       font_data := Some fontInstance;
                       x_scale := xs; y_scale := - ys;
                       x_ppem := xp; y_ppem := yp |};
         fHbBuffer := {| unicode_funcs := hb_icu_unicode_funcs;
                         script := hb_icu_script_to_script scriptCode;
                         direction := HB_DIRECTION_INVALID;
                         flags := HB_BUFFER_FLAG_DEFAULT; replacement := 65533;
                         glyphs := []; context_pre := []; context_post := [] |};
         fTypoFlags := typoFlags; x := raw_x; y := raw_y |}.
Proof.
  unfold LayoutEngine_ctor. intros Hc.
  destruct (LE_FAILURE success) eqn:Hs; [discriminate |].
  destruct (buffer_allocated alloc); [| discriminate].
  destruct (font_allocated alloc); [| discriminate]. simpl in Hc.
  destruct (from_float (fmul (getXPixelsPerEm fontInstance) _)) as [xs |];
    simpl in Hc; [| discriminate].
  destruct (from_float (fmul (getYPixelsPerEm fontInstance) _)) as [ys |];
    simpl in Hc; [| discriminate].
  destruct (neg32 ys) as [nys |] eqn:Hn; simpl in Hc; [| discriminate].
  destruct (uint_of_float (getXPixelsPerEm fontInstance)) as [xp |];
    simpl in Hc; [| discriminate].
  destruct (uint_of_float (getYPixelsPerEm fontInstance)) as [yp |];
    simpl in Hc; [| discriminate].
  assert (Hmin : ys <> min_int32).
  { intros ->. unfold neg32 in Hn. rewrite Z.eqb_refl in Hn. discriminate. }
  rewrite (neg32_Some ys Hmin) in Hn. injection Hn as <-.
  injection Hc as <- <-.
  exists xs, ys, xp, yp. repeat split; assumption.
Qed.

(** C8 (amended). Where construction is defined, the session it yields
    has a font whose horizontal scale is [from_float (ppemX * scaleFactorX)]
    and whose vertical scale is the negation of
    [from_float (ppemY * scaleFactorY)]; its ppem pair is the provider's
    pixels-per-em pair, unscaled, converted to [unsigned int], which drops
    the fractional parts: it is the provider's pair itself when that
    holds whole numbers. Construction is defined when the four
    conversions are and the vertical product is not the least
    [hb_position_t], whose negation overflows. *)
Theorem LayoutEngine_ctor_font_scale `{Shaper} (alloc : hb_alloc) (raw_x raw_y : float)
    (fontInstance : LEFontInstance) (scriptCode languageCode typoFlags : Z)
    (success : LEErrorCode) (xs ys xp yp : Z) :
  LE_FAILURE success = false ->
  buffer_allocated alloc = true -> font_allocated alloc = true ->
  from_float (fmul (getXPixelsPerEm fontInstance) (getScaleFactorX fontInstance)) = Some xs ->
  from_float (fmul (getYPixelsPerEm fontInstance) (getScaleFactorY fontInstance)) = Some ys ->
  ys <> min_int32 ->
  uint_of_float (getXPixelsPerEm fontInstance) = Some xp ->
  uint_of_float (getYPixelsPerEm fontInstance) = Some yp ->
  exists this,
    LayoutEngine_ctor alloc raw_x raw_y fontInstance scriptCode languageCode typoFlags success
    = Some (Some this, success)
    /\ x_scale (fHbFont this) = xs
    /\ y_scale (fHbFont this) = - ys
    /\ x_ppem (fHbFont this) = xp
    /\ y_ppem (fHbFont this) = yp
    /\ (forall v, 0 <= v -> representable v = true ->
          getXPixelsPerEm fontInstance = float_of_int v -> x_ppem (fHbFont this) = v)
    /\ (forall v, 0 <= v -> representable v = true ->
          getYPixelsPerEm fontInstance = float_of_int v -> y_ppem (fHbFont this) = v).
Proof.
  intros Hs Hb Hf Hxs Hys Hmin Hxp Hyp.
  eexists. split; [apply LayoutEngine_ctor_success; eassumption |]. simpl.
  split; [reflexivity |]. split; [reflexivity |].
  split; [reflexivity |]. split; [reflexivity |]. split.
  - intros v Hv Hr Hp. rewrite Hp, (uint_of_float_float_of_int v Hv Hr) in Hxp.
    injection Hxp as <-. reflexivity.
  - intros v Hv Hr Hp. rewrite Hp, (uint_of_float_float_of_int v Hv Hr) in Hyp.
    injection Hyp as <-. reflexivity.
Qed.

Lemma LayoutEngine_ctor_font_scale_witness :
  exists this,
    @LayoutEngine_ctor Fixture.shaper Fixture.alloc_ok fzero fzero Fixture.font 25 0 3
      LE_NO_ERROR
    = Some (Some this, LE_NO_ERROR)
    /\ x_scale (fHbFont this) = 3072
    /\ y_scale (fHbFont this) = - 3072
    /\ x_ppem (fHbFont this) = 12
    /\ y_ppem (fHbFont this) = 12.
Proof.
  destruct (@LayoutEngine_ctor_font_scale Fixture.shaper Fixture.alloc_ok fzero fzero
              Fixture.font 25 0 3 LE_NO_ERROR 3072 3072 12 12)
    as (this & Hc & Hx & Hy & _ & _ & Hpx & Hpy);
    first [ reflexivity | discriminate | idtac ].
  exists this. split; [exact Hc |]. split; [exact Hx |]. split; [exact Hy |].
  split; [apply Hpx | apply Hpy]; first [ reflexivity | lia ].
Defined.

(** C8 (as stated) fails: at twelve and a half pixels per em the scale is
    3200, made from the provider's value, and the ppem handed to the
    engine is 12, which is not the provider's value. *)
Lemma LayoutEngine_ctor_ppem_truncated :
  exists this,
    @LayoutEngine_ctor Fixture.shaper Fixture.alloc_ok fzero fzero Fixture.font_half 25 0 3
      LE_NO_ERROR
    = Some (Some this, LE_NO_ERROR)
    /\ (SF2Q (getXPixelsPerEm Fixture.font_half) == 25 # 2)%Q
    /\ x_scale (fHbFont this) = 3200
    /\ x_ppem (fHbFont this) = 12
    /\ y_ppem (fHbFont this) = 12
    /\ float_of_int (x_ppem (fHbFont this)) <> getXPixelsPerEm Fixture.font_half
    /\ ~ (inject_Z (x_ppem (fHbFont this)) == SF2Q (getXPixelsPerEm Fixture.font_half))%Q.
Proof.
  eexists. split.
  { apply (@LayoutEngine_ctor_success Fixture.shaper Fixture.alloc_ok fzero fzero
             Fixture.font_half 25 0 3 LE_NO_ERROR 3200 3200 12 12);
      first [ reflexivity | discriminate ]. }
  simpl. split; [reflexivity |]. split; [reflexivity |]. split; [reflexivity |].
  split; [reflexivity |]. split.
  - intros Hc. vm_compute in Hc. discriminate Hc.
  - intros Hc. vm_compute in Hc. discriminate Hc.
Qed.

(** The constructor on its other paths: no session, and the error code. *)
Lemma LayoutEngine_ctor_failure `{Shaper} (alloc : hb_alloc) (raw_x raw_y : float)
    (fontInstance : LEFontInstance) (scriptCode languageCode typoFlags : Z)
    (success : LEErrorCode) :
  (LE_FAILURE success = true ->
     LayoutEngine_ctor alloc raw_x raw_y fontInstance scriptCode languageCode typoFlags success
     = Some (None, success))
  /\ (LE_FAILURE success = false ->
      buffer_allocated alloc = false \/ font_allocated alloc = false ->
      LayoutEngine_ctor alloc raw_x raw_y fontInstance scriptCode languageCode typoFlags success
      = Some (None, LE_MEMORY_ALLOCATION_ERROR)).
Proof.
  unfold LayoutEngine_ctor. split.
  - intros ->. reflexivity.
  - intros -> [Hb | Hf].
    + rewrite Hb. reflexivity.
    + rewrite Hf. destruct (buffer_allocated alloc); reflexivity.
Qed.

(** The factory hands out a session exactly when the constructor
    succeeds, and reports an allocation error when it does not. *)
Lemma layoutEngineFactory_typoFlags_spec `{Shaper} (object_allocated : bool)
    (alloc : hb_alloc) (raw_x raw_y : float)
    (fontInstance : LEFontInstance) (scriptCode languageCode typoFlags : Z)
    (success : LEErrorCode) :
  LE_FAILURE success = false ->
  (forall (this : LayoutEngine),
     object_allocated = true ->
     LayoutEngine_ctor alloc raw_x raw_y fontInstance scriptCode languageCode typoFlags success
     = Some (Some this, success) ->
     layoutEngineFactory_typoFlags object_allocated alloc raw_x raw_y fontInstance
       scriptCode languageCode typoFlags success = Some (Some this, success))
  /\ (object_allocated = false \/ buffer_allocated alloc = false
      \/ font_allocated alloc = false ->
      layoutEngineFactory_typoFlags object_allocated alloc raw_x raw_y fontInstance
        scriptCode languageCode typoFlags success = Some (None, LE_MEMORY_ALLOCATION_ERROR)).
Proof.
  intros Hs. unfold layoutEngineFactory_typoFlags. rewrite Hs. split.
  - intros this -> ->. simpl. rewrite Hs. reflexivity.
  - intros Ha. destruct object_allocated; [| simpl; rewrite Hs; reflexivity].
    destruct Ha as [Ha | Ha]; [discriminate |].
    rewrite (proj2 (LayoutEngine_ctor_failure _ _ _ _ _ _ _ _) Hs Ha). reflexivity.
Qed.

(** ** The pen origin *)

(** C3 (construction). The constructor leaves the pen as the storage of
    the object held it: on storage that holds (10, 1) the pen of the new
    session is (10, 1), not (0, 0). *)
Theorem LayoutEngine_ctor_pen_unset :
  exists this,
    @LayoutEngine_ctor Fixture.shaper Fixture.alloc_ok Fixture.ten Fixture.one Fixture.font 25 0 3 LE_NO_ERROR
    = Some (Some this, LE_NO_ERROR)
    /\ (x this, y this) = (Fixture.ten, Fixture.one)
    /\ (x this, y this) <> (fzero, fzero)
    /\ getGlyphPositions this [fzero; fzero] LE_NO_ERROR = Some [Fixture.ten; Fixture.one].
Proof.
  eexists. split; [apply (@LayoutEngine_ctor_success Fixture.shaper Fixture.alloc_ok _ _ Fixture.font
                            25 0 3 LE_NO_ERROR 3072 3072 12 12);
                     first [ reflexivity | discriminate ] |].
  simpl. split; [reflexivity |]. split; [| reflexivity].
  intros Hc. apply (f_equal fst) in Hc. vm_compute in Hc. discriminate Hc.
Qed.

(** In general the pen of a new session is whatever the storage held. *)
Lemma LayoutEngine_ctor_pen `{Shaper} (alloc : hb_alloc) (raw_x raw_y : float)
    (fontInstance : LEFontInstance) (scriptCode languageCode typoFlags : Z)
    (success success' : LEErrorCode) (this : LayoutEngine) :
  LayoutEngine_ctor alloc raw_x raw_y fontInstance scriptCode languageCode typoFlags success
  = Some (Some this, success') ->
  x this = raw_x /\ y this = raw_y.
Proof.
  intros Hc. apply LayoutEngine_ctor_session in Hc as (xs & ys & xp & yp & Hc).
  destruct Hc as (_ & _ & _ & _ & _ & _ & _ & _ & _ & ->). split; reflexivity.
Qed.

(** [reset] puts the pen at (0, 0) and empties the buffer. *)
Lemma reset_pen (this : LayoutEngine) :
  x (reset this) = fzero /\ y (reset this) = fzero
  /\ getGlyphCount (reset this) = 0.
Proof. repeat split. Qed.

(** ** The shaping call *)

Lemma add32_exact (a b : Z) : min_int32 <= a + b <= max_int32 -> add32 a b = a + b.
Proof. unfold add32, min_int32, max_int32. intros Hr. apply to_int32_small. lia. Qed.

Lemma sub32_exact (a b : Z) : min_int32 <= a - b <= max_int32 -> sub32 a b = a - b.
Proof. unfold sub32, min_int32, max_int32. intros Hr. apply to_int32_small. lia. Qed.

(** The check as a proposition. *)
Lemma illegal_arguments_spec (chars : option (list Z)) (offset count max : Z) :
  illegal_arguments chars offset count max = true
  <-> chars = None \/ offset < 0 \/ count < 0 \/ max < 0 \/ offset >= max
      \/ add32 offset count > max.
Proof.
  unfold illegal_arguments.
  rewrite !orb_true_iff, bool_decide_eq_true, !Z.ltb_lt, Z.geb_le, Z.gtb_lt. intuition lia.
Qed.

(** The rejection that the check does make: a call with a successful
    incoming status and a null context, a negative offset, count or
    context length, an offset at or past the context length, or an
    [le_int32] sum of offset and count past the context length sets
    [LE_ILLEGAL_ARGUMENT_ERROR], returns 0 and leaves the session, buffer
    and pen included, as it was. The [le_int32] sum is the sum of the two
    numbers whenever that fits [le_int32]. *)
Lemma layoutChars_illegal_argument `{Shaper} (this : LayoutEngine)
    (chars : option (list Z)) (offset count max : Z) (rightToLeft : bool)
    (x0 y0 : float) (success : LEErrorCode) :
  LE_FAILURE success = false ->
  chars = None \/ offset < 0 \/ count < 0 \/ max < 0 \/ offset >= max
    \/ add32 offset count > max
    \/ (offset + count > max /\ offset + count <= max_int32) ->
  layoutChars this chars offset count max rightToLeft x0 y0 success
  = Some (this, 0, LE_ILLEGAL_ARGUMENT_ERROR).
Proof.
  intros Hs Hill.
  assert (Hi : illegal_arguments chars offset count max = true).
  { apply illegal_arguments_spec.
    destruct Hill as [? | [? | [? | [? | [? | [? | [Hgt Hfit]]]]]]]; auto 6.
    destruct (Z.lt_ge_cases offset 0); [auto |].
    destruct (Z.lt_ge_cases count 0); [auto |].
    do 5 right. rewrite add32_exact by (unfold min_int32; lia). exact Hgt. }
  unfold layoutChars. rewrite Hs, Hi. reflexivity.
Qed.

(** C2 (the sum). The check of line 256 forms [offset + count] as an
    [le_int32]. With offset 1, count 2147483647 and context length 5, all
    of them [le_int32] values, offset plus count is past the context
    length, but the [le_int32] the code compares is the least one: the
    check passes. No call with these arguments, whatever the session, the
    text and the pen, is answered with [LE_ILLEGAL_ARGUMENT_ERROR] and the
    session left alone; one that returns reports the incoming success
    status and has put the pen given and the shaper's buffer into the
    session. *)
Theorem layoutChars_sum_overflow_accepted :
  in_int32 1 = true /\ in_int32 2147483647 = true /\ in_int32 5 = true
  /\ 1 + 2147483647 > 5
  /\ add32 1 2147483647 = min_int32
  /\ forall (S : Shaper) (this : LayoutEngine) (chars : list Z) (rightToLeft : bool)
       (x0 y0 : float),
       illegal_arguments (Some chars) 1 2147483647 5 = false
       /\ @layoutChars S this (Some chars) 1 2147483647 5 rightToLeft x0 y0 LE_NO_ERROR
          <> Some (this, 0, LE_ILLEGAL_ARGUMENT_ERROR)
       /\ forall this' n st,
            @layoutChars S this (Some chars) 1 2147483647 5 rightToLeft x0 y0 LE_NO_ERROR
            = Some (this', n, st) ->
            st = LE_NO_ERROR /\ x this' = x0 /\ y this' = y0
            /\ exists b, hb_shape (fHbFont this) b = Some (fHbBuffer this').
Proof.
  assert (Hadd : add32 1 2147483647 = min_int32) by reflexivity.
  split; [reflexivity |]. split; [reflexivity |]. split; [reflexivity |].
  split; [lia |]. split; [exact Hadd |].
  intros S this chars rightToLeft x0 y0.
  assert (Hill : illegal_arguments (Some chars) 1 2147483647 5 = false).
  { apply not_true_iff_false. rewrite illegal_arguments_spec, Hadd. unfold min_int32.
    intros [Hn | Hr]; [discriminate | lia]. }
  assert (Hret : forall this' n st,
            @layoutChars S this (Some chars) 1 2147483647 5 rightToLeft x0 y0 LE_NO_ERROR
            = Some (this', n, st) ->
            st = LE_NO_ERROR /\ x this' = x0 /\ y this' = y0
            /\ exists b, hb_shape (fHbFont this) b = Some (fHbBuffer this')).
  { intros this' n st. unfold layoutChars. cbn [LE_FAILURE]. rewrite Hill.
    cbn [mbind option_bind].
    destruct (layoutChars_buffer _ chars 1 2147483647 5 rightToLeft) as [b |];
      cbn [mbind option_bind]; [| discriminate].
    destruct (hb_shape _ b) as [b' |] eqn:Hsh; cbn [mbind option_bind]; [| discriminate].
    intros [= <- _ <-]. cbn [x y fHbBuffer fHbFont] in *.
    split; [reflexivity |]. split; [reflexivity |]. split; [reflexivity |].
    exists b. exact Hsh. }
  split; [exact Hill |]. split; [| exact Hret].
  intros Hc. destruct (Hret _ _ _ Hc) as [Hst _]. discriminate Hst.
Qed.

(** A failed incoming status: nothing happens. *)
Lemma layoutChars_failure `{Shaper} (this : LayoutEngine)
    (chars : option (list Z)) (offset count max : Z) (rightToLeft : bool)
    (x0 y0 : float) (success : LEErrorCode) :
  LE_FAILURE success = true ->
  layoutChars this chars offset count max rightToLeft x0 y0 success = Some (this, 0, success).
Proof. intros Hs. unfold layoutChars. rewrite Hs. reflexivity. Qed.

(** Every code point decoded from [text] carries the index of one of its
    code units, counted from [i]. *)
Lemma utf16_next_cluster (repl : Z) (text : list Z) :
  forall (i : Z) (g : hb_glyph_info_t),
    g ∈ utf16_next repl i text -> i <= cluster g < i + Z.of_nat (length text).
Proof.
  remember (length text) as n eqn:Hn. revert text Hn.
  induction n as [n IH] using lt_wf_ind. intros text Hn i g Hg.
  destruct text as [| c rest]; simpl in Hg; [inversion Hg |].
  assert (Hrest : forall j g', g' ∈ utf16_next repl j rest ->
                    j <= cluster g' < j + Z.of_nat (length rest)).
  { apply (IH (length rest)); [simpl in Hn; lia | reflexivity]. }
  simpl in Hn.
  destruct (is_high_surrogate c).
  - destruct rest as [| l rest'].
    + apply list_elem_of_singleton in Hg as ->. simpl. lia.
    + destruct (is_low_surrogate l).
      * apply elem_of_cons in Hg as [-> | Hg]; [simpl in *; lia |].
        apply (IH (length rest')) in Hg; [simpl in *; lia | simpl in *; lia | reflexivity].
      * apply elem_of_cons in Hg as [-> | Hg]; [simpl in *; lia |].
        apply Hrest in Hg. simpl in *. lia.
  - destruct (is_low_surrogate c);
      (apply elem_of_cons in Hg as [-> | Hg]; [simpl in *; lia |]);
      apply Hrest in Hg; simpl in *; lia.
Qed.

(** The loop [out[i] = f (info[i])] on an array that is long enough. *)
Lemma copy_loop_spec {A : Type} (f : hb_glyph_t -> A) (info : list hb_glyph_t) :
  forall (i : nat) (out : list A),
    (i + length info <= length out)%nat ->
    exists out',
      copy_loop f info i out = Some out'
      /\ length out' = length out
      /\ (forall k g, info !! k = Some g -> out' !! (i + k)%nat = Some (f g))
      /\ (forall j, (j < i \/ i + length info <= j)%nat -> out' !! j = out !! j).
Proof.
  induction info as [| g rest IH]; intros i out Hlen; simpl in *.
  - exists out. split; [reflexivity |]. split; [reflexivity |].
    split; [intros k g Hk; rewrite lookup_nil in Hk; discriminate | reflexivity].
  - unfold array_store. rewrite decide_True by lia. simpl.
    destruct (IH (S i) (<[i := f g]> out)) as (out' & Hc & Hl & Hin & Hout).
    { rewrite length_insert. lia. }
    exists out'. split; [exact Hc |]. rewrite length_insert in Hl.
    split; [exact Hl |]. split.
    + intros [| k] g' Hk; simpl in Hk.
      * injection Hk as <-. rewrite Hout by lia.
        rewrite Nat.add_0_r. apply list_lookup_insert_eq. lia.
      * replace (i + S k)%nat with (S i + k)%nat by lia. apply Hin. exact Hk.
    + intros j Hj. rewrite Hout by lia. apply list_lookup_insert_ne. lia.
Qed.

(** The fixture shaper keeps the flags and the cluster values. *)
Lemma Fixture_shaper_contract : shaper_contract Fixture.shaper.
Proof.
  split.
  - intros f b b' Hs. simpl in Hs. unfold Fixture.shape in Hs.
    destruct (mapM _ _) as [gs |]; simpl in Hs; [| discriminate].
    injection Hs as <-. reflexivity.
  - intros f b b' g Hs Hg. simpl in Hs. unfold Fixture.shape in Hs.
    destruct (mapM _ _) as [gs |] eqn:Hm; simpl in Hs; [| discriminate].
    injection Hs as <-. simpl in Hg.
    assert (Hin : g ∈ gs).
    { destruct (direction b); try exact Hg. apply elem_of_reverse. exact Hg. }
    apply mapM_Some_1 in Hm.
    apply list_elem_of_lookup in Hin as [i Hi].
    destruct (Forall2_lookup_r _ _ _ _ _ Hm Hi) as (g0 & Hg0 & Hsg).
    exists g0. split; [apply list_elem_of_lookup; eauto |].
    unfold Fixture.shape_glyph in Hsg.
    destruct (klass f) as [k |]; [destruct (font_data f) as [d |] |].
    + destruct (glyph_func k d _ 0 1 ∅) as [[ok h] |]; simpl in Hsg; [| discriminate].
      destruct (glyph_h_advance_func k d _) as [adv |]; simpl in Hsg; [| discriminate].
      injection Hsg as <-. reflexivity.
    + injection Hsg as <-. reflexivity.
    + injection Hsg as <-. reflexivity.
Qed.

Section ValidCall.

Context `{S : Shaper}.

Variables (this : LayoutEngine) (chars : list Z) (offset count max : Z).
Variables (rightToLeft : bool) (x0 y0 : float) (success : LEErrorCode).

Hypothesis success_ok : LE_FAILURE success = false.
Hypothesis max_int : max <= max_int32.
Hypothesis offset_range : 0 <= offset < max.
Hypothesis count_range : 0 <= count.
Hypothesis sum_range : offset + count <= max.
Hypothesis chars_length : max <= Z.of_nat (length chars).

Lemma valid_not_illegal : illegal_arguments (Some chars) offset count max = false.
Proof.
  apply not_true_iff_false. rewrite illegal_arguments_spec.
  unfold max_int32, min_int32 in *.
  rewrite add32_exact by (unfold max_int32, min_int32; lia).
  intros [Hn | Hr]; [discriminate | lia].
Qed.

Lemma layoutChars_buffer_valid (pen : LayoutEngine) :
  fHbBuffer pen = fHbBuffer this ->
  layoutChars_buffer pen chars offset count max rightToLeft
  = Some (shaping_input this chars offset count max rightToLeft).
Proof.
  intros Hb. unfold layoutChars_buffer, hb_buffer_add_utf16. rewrite Hb.
  unfold max_int32, min_int32 in *.
  rewrite add32_exact by (unfold max_int32, min_int32; lia).
  rewrite sub32_exact by (unfold max_int32, min_int32; lia).
  destruct (Z.eqb_spec max (-1)) as [? | _]; [lia |]. simpl.
  rewrite decide_True by lia. simpl.
  destruct (Z.eqb_spec (max - offset) (-1)) as [? | _]; [lia |]. simpl.
  destruct (Z.eqb_spec count (-1)) as [? | _]; [lia |].
  rewrite decide_True by (rewrite length_drop; lia). simpl.
  unfold shaping_input. f_equal. f_equal.
  repeat case_decide; first [reflexivity | exfalso; intuition lia].
Qed.



(** A valid call is the shaper run on [shaping_input], with the pen set. *)
Lemma layoutChars_valid :
  layoutChars this (Some chars) offset count max rightToLeft x0 y0 success
  = b ← hb_shape (fHbFont this) (shaping_input this chars offset count max rightToLeft);
    Some ({| fHbFont := fHbFont this; fHbBuffer := b; fTypoFlags := fTypoFlags this;
             x := x0; y := y0 |},
          to_int32 (Z.of_nat (length (glyphs b))), success).
Proof.
  unfold layoutChars. rewrite success_ok, valid_not_illegal. simpl.
  erewrite layoutChars_buffer_valid by reflexivity. reflexivity.
Qed.

Lemma flag_set_BOT (a b : bool) :
  flag_set (Z.lor (if a then HB_BUFFER_FLAG_BOT else 0) (if b then HB_BUFFER_FLAG_EOT else 0))
    HB_BUFFER_FLAG_BOT = a.
Proof. destruct a, b; reflexivity. Qed.

Lemma flag_set_EOT (a b : bool) :
  flag_set (Z.lor (if a then HB_BUFFER_FLAG_BOT else 0) (if b then HB_BUFFER_FLAG_EOT else 0))
    HB_BUFFER_FLAG_EOT = b.
Proof. destruct a, b; reflexivity. Qed.

Lemma shaping_input_flags :
  let b := shaping_input this chars offset count max rightToLeft in
  (flag_set (flags b) HB_BUFFER_FLAG_BOT = true <-> offset = 0)
  /\ (flag_set (flags b) HB_BUFFER_FLAG_EOT = true <-> offset + count = max)
  /\ (0 < offset -> offset + count < max -> flags b = HB_BUFFER_FLAG_DEFAULT).
Proof.
  simpl. rewrite flag_set_BOT, flag_set_EOT, !Z.eqb_eq.
  split; [reflexivity |]. split; [reflexivity |].
  intros Ho Hc.
  destruct (Z.eqb_spec offset 0); [lia |].
  destruct (Z.eqb_spec (offset + count) max); [lia | reflexivity].
Qed.

(** C6. On a valid call the buffer goes to the shaper with "beginning of
    text" set exactly when the offset is 0 and "end of text" set exactly
    when offset plus count is the context length, so with neither for a
    middle subrange; with a shaper that leaves the flags alone they are
    still so when the call returns. *)
Theorem layoutChars_boundary_flags :
  exists b,
    layoutChars_buffer
      {| fHbFont := fHbFont this; fHbBuffer := fHbBuffer this;
         fTypoFlags := fTypoFlags this; x := x0; y := y0 |}
      chars offset count max rightToLeft = Some b
    /\ (flag_set (flags b) HB_BUFFER_FLAG_BOT = true <-> offset = 0)
    /\ (flag_set (flags b) HB_BUFFER_FLAG_EOT = true <-> offset + count = max)
    /\ (0 < offset -> offset + count < max -> flags b = HB_BUFFER_FLAG_DEFAULT)
    /\ layoutChars this (Some chars) offset count max rightToLeft x0 y0 success
       = (b' ← hb_shape (fHbFont this) b;
          Some ({| fHbFont := fHbFont this; fHbBuffer := b'; fTypoFlags := fTypoFlags this;
                   x := x0; y := y0 |},
                to_int32 (Z.of_nat (length (glyphs b'))), success))
    /\ (shaper_contract S ->
        forall this' n st,
          layoutChars this (Some chars) offset count max rightToLeft x0 y0 success
          = Some (this', n, st) ->
          flags (fHbBuffer this') = flags b).
Proof.
  exists (shaping_input this chars offset count max rightToLeft).
  split; [apply layoutChars_buffer_valid; reflexivity |].
  destruct shaping_input_flags as (Hb & He & Hm).
  split; [exact Hb |]. split; [exact He |]. split; [exact Hm |].
  split; [apply layoutChars_valid |].
  intros HC this' n st. rewrite layoutChars_valid.
  destruct (hb_shape _ _) as [b' |] eqn:Hsh; simpl; [| discriminate].
  intros [= <- _ _]. exact (shape_flags S HC _ _ _ Hsh).
Qed.

(** The pen of a call that returns from the valid path is the caller's. *)
Lemma layoutChars_valid_pen (this' : LayoutEngine) (n : Z) (st : LEErrorCode) :
  layoutChars this (Some chars) offset count max rightToLeft x0 y0 success
  = Some (this', n, st) ->
  x this' = x0 /\ y this' = y0 /\ fHbFont this' = fHbFont this
  /\ fTypoFlags this' = fTypoFlags this /\ st = success
  /\ n = getGlyphCount this'.
Proof.
  rewrite layoutChars_valid.
  destruct (hb_shape _ _) as [b' |]; simpl; [| discriminate].
  intros [= <- <- <-]. repeat split.
Qed.

(** The text to shape is numbered from the start of the subrange. *)
Lemma shaping_input_clusters (g : hb_glyph_t) :
  g ∈ glyphs (shaping_input this chars offset count max rightToLeft) ->
  0 <= cluster (info g) < count.
Proof.
  simpl. intros Hg. apply list_elem_of_fmap_1 in Hg as (i & -> & Hi).
  apply utf16_next_cluster in Hi. rewrite length_take in Hi. simpl. lia.
Qed.

(** C1 (amended). After a valid call that returns, every cluster value
    that [getCharIndices] copies out is an index relative to the start of
    the shaped subrange: it lies in [[0, count)]. *)
Theorem layoutChars_clusters_relative (this' : LayoutEngine) (n : Z) (st : LEErrorCode)
    (charIndices : list Z) :
  shaper_contract S ->
  layoutChars this (Some chars) offset count max rightToLeft x0 y0 success
  = Some (this', n, st) ->
  (hb_buffer_get_length (fHbBuffer this') <= length charIndices)%nat ->
  exists out,
    getCharIndices this' charIndices st = Some out
    /\ length out = length charIndices
    /\ forall i, (i < hb_buffer_get_length (fHbBuffer this'))%nat ->
         exists c, out !! i = Some c /\ 0 <= c < count.
Proof.
  intros contract Hcall Hlen.
  rewrite layoutChars_valid in Hcall.
  destruct (hb_shape _ _) as [b' |] eqn:Hsh; simpl in Hcall; [| discriminate].
  injection Hcall as <- <- <-.
  unfold getCharIndices, hb_buffer_get_glyph_infos, hb_buffer_get_length in *.
  rewrite success_ok. simpl in *.
  destruct (copy_loop_spec (fun g => to_int32 (cluster (info g))) (glyphs b') 0 charIndices)
    as (out & Hc & Hl & Hin & _); [simpl; lia |].
  exists out. split; [exact Hc |]. split; [exact Hl |].
  intros i Hi. destruct (lookup_lt_is_Some_2 (glyphs b') i Hi) as [g Hg].
  exists (to_int32 (cluster (info g))). split; [exact (Hin i g Hg) |].
  assert (Hm : g ∈ glyphs b') by (apply list_elem_of_lookup; eauto).
  destruct (shape_clusters S contract _ _ _ g Hsh Hm) as (g0 & Hg0 & ->).
  apply shaping_input_clusters in Hg0.
  unfold max_int32 in max_int. rewrite to_int32_small by lia. exact Hg0.
Qed.

(** With [offset] as index base the values are the absolute indices into
    the context. *)
Lemma layoutChars_clusters_rebased (this' : LayoutEngine) (n : Z) (st : LEErrorCode)
    (charIndices : list Z) :
  shaper_contract S ->
  layoutChars this (Some chars) offset count max rightToLeft x0 y0 success
  = Some (this', n, st) ->
  (hb_buffer_get_length (fHbBuffer this') <= length charIndices)%nat ->
  exists out,
    getCharIndices_base this' charIndices offset st = Some out
    /\ forall i, (i < hb_buffer_get_length (fHbBuffer this'))%nat ->
         exists c, out !! i = Some c /\ offset <= c < offset + count.
Proof.
  intros contract Hcall Hlen.
  rewrite layoutChars_valid in Hcall.
  destruct (hb_shape _ _) as [b' |] eqn:Hsh; simpl in Hcall; [| discriminate].
  injection Hcall as <- <- <-.
  unfold getCharIndices_base, hb_buffer_get_glyph_infos, hb_buffer_get_length in *.
  rewrite success_ok. simpl in *.
  destruct (copy_loop_spec (fun g => to_int32 (cluster (info g) + offset)) (glyphs b') 0
              charIndices) as (out & Hc & _ & Hin & _); [simpl; lia |].
  exists out. split; [exact Hc |].
  intros i Hi. destruct (lookup_lt_is_Some_2 (glyphs b') i Hi) as [g Hg].
  exists (to_int32 (cluster (info g) + offset)). split; [exact (Hin i g Hg) |].
  assert (Hm : g ∈ glyphs b') by (apply list_elem_of_lookup; eauto).
  destruct (shape_clusters S contract _ _ _ g Hsh Hm) as (g0 & Hg0 & ->).
  apply shaping_input_clusters in Hg0.
  unfold max_int32 in max_int. rewrite to_int32_small by lia. lia.
Qed.

End ValidCall.

(** ** The scenarios of the spec on the fixture *)

Lemma Fixture_engine_constructed :
  @LayoutEngine_ctor Fixture.shaper Fixture.alloc_ok fzero fzero Fixture.font 25 0 3 LE_NO_ERROR
  = Some (Some Fixture.engine, LE_NO_ERROR).
Proof.
  apply (@LayoutEngine_ctor_success Fixture.shaper Fixture.alloc_ok fzero fzero Fixture.font
           25 0 3 LE_NO_ERROR 3072 3072 12 12); first [ reflexivity | discriminate ].
Qed.

(** "ell" of "Hello": three glyphs, neither boundary flag. *)
Lemma Fixture_layoutChars_ell :
  @layoutChars Fixture.shaper Fixture.engine (Some Fixture.hello) 1 3 5 false fzero fzero
    LE_NO_ERROR
  = Some (Fixture.engine_ell, 3, LE_NO_ERROR).
Proof.
  rewrite layoutChars_valid;
    [| reflexivity | unfold max_int32; lia | lia | lia | lia | simpl; lia].
  assert (Hs : @hb_shape Fixture.shaper (fHbFont Fixture.engine)
                 (shaping_input Fixture.engine Fixture.hello 1 3 5 false)
               = Some (fHbBuffer Fixture.engine_ell)) by (vm_compute; reflexivity).
  rewrite Hs. reflexivity.
Qed.

(** The first scenario of the spec: all of "Hello" from the origin gives
    five glyphs with the cluster values 0 to 4, both boundary flags set,
    and a trailing pair that is the sum of the five advances. *)
Example Fixture_layoutChars_hello :
  exists this' out,
    @layoutChars Fixture.shaper Fixture.engine (Some Fixture.hello) 0 5 5 false fzero fzero
      LE_NO_ERROR
    = Some (this', 5, LE_NO_ERROR)
    /\ getGlyphCount this' = 5
    /\ getCharIndices this' (replicate 5 9) LE_NO_ERROR = Some [0; 1; 2; 3; 4]
    /\ flags (fHbBuffer this') = Z.lor HB_BUFFER_FLAG_BOT HB_BUFFER_FLAG_EOT
    /\ getGlyphPositions this' (replicate 12 fzero) LE_NO_ERROR = Some out
    /\ out !! 10%nat = Some (float_of_int 50)
    /\ out !! 11%nat = Some fzero.
Proof.
  eexists. eexists. split.
  { rewrite layoutChars_valid;
      [| reflexivity | unfold max_int32; lia | lia | lia | lia | simpl; lia].
    set (r := hb_shape _ _). vm_compute in r. subst r. reflexivity. }
  repeat split; vm_compute; reflexivity.
Qed.

(** C1 (as stated) fails: shaping characters [[1, 4)] of the five of
    "Hello" yields the cluster values 0, 1, 2, which are not the absolute
    indices 1, 2, 3 and do not all lie in [[1, 4)]. *)
Lemma layoutChars_clusters_not_absolute :
  exists this' out,
    @layoutChars Fixture.shaper Fixture.engine (Some Fixture.hello) 1 3 5 false fzero fzero
      LE_NO_ERROR
    = Some (this', 3, LE_NO_ERROR)
    /\ getCharIndices this' [9; 9; 9] LE_NO_ERROR = Some out
    /\ out = [0; 1; 2]
    /\ out <> [1; 2; 3]
    /\ ~ Forall (fun c => 1 <= c < 1 + 3) out.
Proof.
  exists Fixture.engine_ell, [0; 1; 2].
  split; [exact Fixture_layoutChars_ell |].
  split; [vm_compute; reflexivity |]. split; [reflexivity |].
  split; [discriminate |].
  intros Hall. apply Forall_cons in Hall as [H0 _]. lia.
Qed.

Lemma layoutChars_clusters_relative_witness :
  exists out,
    getCharIndices Fixture.engine_ell [9; 9; 9] LE_NO_ERROR = Some out
    /\ length out = 3%nat
    /\ forall i, (i < 3)%nat -> exists c, out !! i = Some c /\ 0 <= c < 3.
Proof.
  apply (@layoutChars_clusters_relative Fixture.shaper Fixture.engine Fixture.hello 1 3 5
           false fzero fzero LE_NO_ERROR) with (n := 3);
    first [ reflexivity | exact Fixture_shaper_contract | exact Fixture_layoutChars_ell
          | (unfold max_int32; simpl; lia) ].
Defined.

Lemma layoutChars_illegal_argument_witness :
  @layoutChars Fixture.shaper Fixture.engine_ell (Some Fixture.hello) 4 3 5 false
    Fixture.ten Fixture.ten LE_NO_ERROR
  = Some (Fixture.engine_ell, 0, LE_ILLEGAL_ARGUMENT_ERROR).
Proof.
  apply (@layoutChars_illegal_argument Fixture.shaper); [reflexivity |].
  do 6 right. unfold max_int32. lia.
Defined.

Lemma layoutChars_boundary_flags_witness :
  exists b,
    layoutChars_buffer Fixture.engine Fixture.hello 1 3 5 false = Some b
    /\ flag_set (flags b) HB_BUFFER_FLAG_BOT = false
    /\ flag_set (flags b) HB_BUFFER_FLAG_EOT = false
    /\ flags (fHbBuffer Fixture.engine_ell) = flags b.
Proof.
  destruct (@layoutChars_boundary_flags Fixture.shaper Fixture.engine Fixture.hello 1 3 5
              false fzero fzero LE_NO_ERROR)
    as (b & Hb & _ & _ & Hmid & _ & Hret);
    first [ reflexivity | (unfold max_int32; simpl; lia) | idtac ].
  exists b. split; [exact Hb |].
  split; [rewrite Hmid by lia; reflexivity |].
  split; [rewrite Hmid by lia; reflexivity |].
  exact (Hret Fixture_shaper_contract _ _ _ Fixture_layoutChars_ell).
Defined.

(** ** Positions *)

Section Positions.

Local Open Scope nat_scope.

Lemma array_store_Some {A : Type} (a : list A) (i : nat) (v : A) :
  i < length a -> array_store a i v = Some (<[i := v]> a).
Proof. intros Hi. unfold array_store. rewrite decide_True by exact Hi. reflexivity. Qed.

(** The loop of [getGlyphPositions] on an array that is long enough: it
    ends with the pen advanced over all of [pos], has written the pair of
    every glyph and has touched nothing else. *)
Lemma getGlyphPositions_loop_spec (pos : list hb_glyph_t) :
  forall (i : nat) (px py : float) (positions : list float),
    2 * (i + length pos) <= length positions ->
    exists out,
      getGlyphPositions_loop pos i px py positions
      = Some (i + length pos, fst (foldl advance_pen (px, py) pos),
              snd (foldl advance_pen (px, py) pos), out)
      /\ length out = length positions
      /\ (forall k g, pos !! k = Some g ->
            out !! (2 * (i + k)) =
              Some (fadd (fst (foldl advance_pen (px, py) (take k pos)))
                         (to_float (x_offset (HarfBuzz.pos g))))
            /\ out !! (2 * (i + k) + 1) =
              Some (fadd (snd (foldl advance_pen (px, py) (take k pos)))
                         (to_float (y_offset (HarfBuzz.pos g)))))
      /\ (forall j, j < 2 * i \/ 2 * (i + length pos) <= j -> out !! j = positions !! j).
Proof.
  induction pos as [| g rest IH]; intros i px py positions Hlen; simpl in Hlen.
  - exists positions. simpl. rewrite Nat.add_0_r.
    split; [reflexivity |]. split; [reflexivity |].
    split; [intros k g Hk; rewrite lookup_nil in Hk; discriminate | reflexivity].
  - cbn [getGlyphPositions_loop].
    rewrite array_store_Some by lia. cbn [mbind option_bind].
    rewrite array_store_Some by (rewrite length_insert; lia).
    cbn [mbind option_bind].
    set (a1 := <[2 * i + 1 := _]> (<[2 * i := _]> positions)).
    assert (Hl1 : length a1 = length positions).
    { unfold a1. rewrite !length_insert. reflexivity. }
    destruct (IH (S i) (fadd px (to_float (x_advance (HarfBuzz.pos g))))
                 (fadd py (to_float (y_advance (HarfBuzz.pos g)))) a1)
      as (out & Hloop & Hlo & Hin & Hout); [lia |].
    exists out. split.
    { replace (i + length (g :: rest)) with (S i + length rest) by (simpl; lia).
      rewrite Hloop. reflexivity. }
    split; [lia |]. split.
    + intros [| k] g' Hk; simpl in Hk.
      * injection Hk as <-. rewrite Nat.add_0_r. simpl take. simpl foldl.
        split.
        -- rewrite Hout by lia. unfold a1.
           rewrite list_lookup_insert_ne by lia. apply list_lookup_insert_eq. lia.
        -- rewrite Hout by lia. unfold a1.
           apply list_lookup_insert_eq. rewrite length_insert. lia.
      * replace (i + S k) with (S i + k) by lia. simpl take. simpl foldl.
        apply Hin. exact Hk.
    + intros j Hj. simpl in Hj. rewrite Hout by lia. unfold a1.
      rewrite !list_lookup_insert_ne by lia. reflexivity.
Qed.

(** What [getGlyphPositions] leaves in the array. *)
Lemma getGlyphPositions_correct (this : LayoutEngine) (positions : list float)
    (success : LEErrorCode) :
  LE_FAILURE success = false ->
  2 * hb_buffer_get_length (fHbBuffer this) + 2 <= length positions ->
  exists out,
    getGlyphPositions this positions success = Some out
    /\ length out = length positions
    /\ (forall i g, glyphs (fHbBuffer this) !! i = Some g ->
          out !! (2 * i) =
            Some (fadd (fst (pen_after this i)) (to_float (x_offset (pos g))))
          /\ out !! (2 * i + 1) =
            Some (fadd (snd (pen_after this i)) (to_float (y_offset (pos g)))))
    /\ out !! (2 * hb_buffer_get_length (fHbBuffer this))
       = Some (fst (pen_after this (hb_buffer_get_length (fHbBuffer this))))
    /\ out !! (2 * hb_buffer_get_length (fHbBuffer this) + 1)
       = Some (snd (pen_after this (hb_buffer_get_length (fHbBuffer this))))
    /\ (forall j, 2 * hb_buffer_get_length (fHbBuffer this) + 2 <= j ->
          out !! j = positions !! j).
Proof.
  unfold hb_buffer_get_length. intros Hs Hlen.
  unfold getGlyphPositions, hb_buffer_get_glyph_positions. rewrite Hs.
  set (gs := glyphs (fHbBuffer this)) in *.
  destruct (getGlyphPositions_loop_spec gs 0 (x this) (y this) positions)
    as (out & Hloop & Hlo & Hin & Hout); [simpl; lia |].
  rewrite Hloop. cbn [mbind option_bind]. simpl (0 + length gs).
  rewrite array_store_Some by lia. cbn [mbind option_bind].
  rewrite array_store_Some by (rewrite length_insert; lia).
  eexists. split; [reflexivity |].
  unfold pen_after. fold gs. rewrite firstn_all.
  split; [rewrite !length_insert; exact Hlo |]. split.
  - intros i g Hg. destruct (Hin i g Hg) as [Hx Hy]. simpl (0 + i) in *.
    assert (Hi : i < length gs) by (eapply lookup_lt_Some; exact Hg).
    rewrite !list_lookup_insert_ne by lia. auto.
  - split; [| split].
    + rewrite list_lookup_insert_ne by lia. apply list_lookup_insert_eq. lia.
    + apply list_lookup_insert_eq. rewrite length_insert. lia.
    + intros j Hj. rewrite !list_lookup_insert_ne by lia. apply Hout. lia.
Qed.

(** The loop of [getGlyphPosition]: [n] advances from glyph [i] on. *)
Lemma getGlyphPosition_loop_spec (pos : list hb_glyph_t) :
  forall (n i : nat) (px py : float),
    i + n <= length pos ->
    getGlyphPosition_loop pos i n px py
    = Some (foldl advance_pen (px, py) (take n (drop i pos))).
Proof.
  induction n as [| n IH]; intros i px py Hlen.
  - reflexivity.
  - cbn [getGlyphPosition_loop].
    destruct (lookup_lt_is_Some_2 pos i) as [g Hg]; [lia |].
    rewrite Hg. cbn [mbind option_bind]. rewrite IH by lia.
    rewrite (drop_S pos g i Hg). reflexivity.
Qed.

(** What [getGlyphPosition] returns for a glyph of the buffer. *)
Lemma getGlyphPosition_correct (this : LayoutEngine) (glyphIndex : Z) (x0 y0 : float)
    (success : LEErrorCode) (g : hb_glyph_t) :
  LE_FAILURE success = false ->
  (0 <= glyphIndex <= max_int32)%Z ->
  glyphs (fHbBuffer this) !! Z.to_nat glyphIndex = Some g ->
  getGlyphPosition this glyphIndex x0 y0 success
  = Some (fadd (fst (pen_after this (Z.to_nat glyphIndex))) (to_float (x_offset (pos g))),
          fadd (snd (pen_after this (Z.to_nat glyphIndex))) (to_float (y_offset (pos g)))).
Proof.
  intros Hs Hr Hg. unfold getGlyphPosition, hb_buffer_get_glyph_positions. rewrite Hs.
  assert (Hi : Z.to_nat glyphIndex < length (glyphs (fHbBuffer this)))
    by (eapply lookup_lt_Some; exact Hg).
  unfold max_int32 in Hr.
  rewrite to_uint32_small by (change (2 ^ 32)%Z with (2 * 2 ^ 31)%Z; lia).
  rewrite getGlyphPosition_loop_spec by (simpl; lia).
  cbn [mbind option_bind]. rewrite drop_0.
  destruct (foldl advance_pen (x this, y this) _) as [px py] eqn:Hpen.
  rewrite decide_False by lia. rewrite Hg. cbn [mbind option_bind].
  unfold pen_after. rewrite Hpen. reflexivity.
Qed.

(** C4. For a buffer of [n] glyphs and a caller array that holds
    [2n + 2] floats, [getGlyphPositions] writes exactly the first [2n + 2]
    entries: entries [2i] and [2i + 1] are the pen after the first [i]
    glyphs plus the offset of glyph [i], converted to device units, and
    entries [2n] and [2n + 1] are the pen after all glyphs, the pen
    starting at the stored origin and advancing by every glyph's advance. *)
Theorem getGlyphPositions_spec (this : LayoutEngine) (positions : list float)
    (success : LEErrorCode) :
  LE_FAILURE success = false ->
  2 * hb_buffer_get_length (fHbBuffer this) + 2 <= length positions ->
  exists out,
    getGlyphPositions this positions success = Some out
    /\ length out = length positions
    /\ (forall i g, glyphs (fHbBuffer this) !! i = Some g ->
          out !! (2 * i) =
            Some (fadd (fst (pen_after this i)) (to_float (x_offset (pos g))))
          /\ out !! (2 * i + 1) =
            Some (fadd (snd (pen_after this i)) (to_float (y_offset (pos g))))
          /\ pen_after this (S i) = advance_pen (pen_after this i) g)
    /\ pen_after this 0 = (x this, y this)
    /\ out !! (2 * hb_buffer_get_length (fHbBuffer this))
       = Some (fst (pen_after this (hb_buffer_get_length (fHbBuffer this))))
    /\ out !! (2 * hb_buffer_get_length (fHbBuffer this) + 1)
       = Some (snd (pen_after this (hb_buffer_get_length (fHbBuffer this))))
    /\ (forall j, 2 * hb_buffer_get_length (fHbBuffer this) + 2 <= j ->
          out !! j = positions !! j).
Proof.
  intros Hs Hlen.
  destruct (getGlyphPositions_correct this positions success Hs Hlen)
    as (out & Hc & Hl & Hin & Hx & Hy & Hout).
  exists out. split; [exact Hc |]. split; [exact Hl |]. split.
  - intros i g Hg. destruct (Hin i g Hg) as [H1 H2].
    split; [exact H1 |]. split; [exact H2 |].
    unfold pen_after. rewrite (take_S_r _ _ _ Hg), foldl_snoc. reflexivity.
  - split; [reflexivity |]. auto.
Qed.

Lemma getGlyphPositions_spec_witness :
  exists out,
    getGlyphPositions Fixture.engine_ell (replicate 9 Fixture.one) LE_NO_ERROR = Some out
    /\ length out = 9
    /\ out !! 6 = Some (fst (pen_after Fixture.engine_ell 3))
    /\ out !! 7 = Some (snd (pen_after Fixture.engine_ell 3))
    /\ out !! 8 = Some Fixture.one.
Proof.
  destruct (getGlyphPositions_spec Fixture.engine_ell (replicate 9 Fixture.one) LE_NO_ERROR)
    as (out & Hc & Hl & _ & _ & Hx & Hy & Hout); [reflexivity | simpl; lia |].
  exists out. split; [exact Hc |]. split; [exact Hl |].
  split; [exact Hx |]. split; [exact Hy |].
  rewrite Hout by (simpl; lia). reflexivity.
Defined.

(** C5. For a glyph index [i] of the buffer, [getGlyphPosition] returns
    the pair that [getGlyphPositions] writes to entries [2i] and [2i + 1]:
    the origin advanced over the glyphs before [i], plus the offset of
    glyph [i]. *)
Theorem getGlyphPosition_agrees (this : LayoutEngine) (glyphIndex : Z) (x0 y0 : float)
    (positions : list float) (success : LEErrorCode) :
  LE_FAILURE success = false ->
  (0 <= glyphIndex < Z.of_nat (hb_buffer_get_length (fHbBuffer this)))%Z ->
  (glyphIndex <= max_int32)%Z ->
  2 * hb_buffer_get_length (fHbBuffer this) + 2 <= length positions ->
  exists out px py g,
    getGlyphPositions this positions success = Some out
    /\ getGlyphPosition this glyphIndex x0 y0 success = Some (px, py)
    /\ out !! (2 * Z.to_nat glyphIndex) = Some px
    /\ out !! (2 * Z.to_nat glyphIndex + 1) = Some py
    /\ glyphs (fHbBuffer this) !! Z.to_nat glyphIndex = Some g
    /\ px = fadd (fst (pen_after this (Z.to_nat glyphIndex))) (to_float (x_offset (pos g)))
    /\ py = fadd (snd (pen_after this (Z.to_nat glyphIndex))) (to_float (y_offset (pos g))).
Proof.
  intros Hs Hi Hmax Hlen.
  destruct (getGlyphPositions_correct this positions success Hs Hlen)
    as (out & Hc & _ & Hin & _).
  unfold hb_buffer_get_length in Hi.
  destruct (lookup_lt_is_Some_2 (glyphs (fHbBuffer this)) (Z.to_nat glyphIndex))
    as [g Hg]; [lia |].
  destruct (Hin _ g Hg) as [Hx Hy].
  eexists out, _, _, g. split; [exact Hc |].
  split; [apply getGlyphPosition_correct; [exact Hs | lia | exact Hg] |].
  auto.
Qed.

Lemma getGlyphPosition_agrees_witness :
  exists out px py,
    getGlyphPositions Fixture.engine_ell (replicate 8 fzero) LE_NO_ERROR = Some out
    /\ getGlyphPosition Fixture.engine_ell 2 fzero fzero LE_NO_ERROR = Some (px, py)
    /\ out !! 4 = Some px
    /\ out !! 5 = Some py.
Proof.
  destruct (getGlyphPosition_agrees Fixture.engine_ell 2 fzero fzero (replicate 8 fzero)
              LE_NO_ERROR)
    as (out & px & py & g & Hc & Hp & Hx & Hy & _);
    [reflexivity | vm_compute; split; [discriminate | reflexivity]
    | unfold max_int32; lia | simpl; lia |].
  exists out, px, py. auto.
Defined.

(** The second scenario of the spec: the positions of "ell". *)
Example Fixture_positions_ell :
  getGlyphPositions Fixture.engine_ell (replicate 8 fzero) LE_NO_ERROR
  = Some [float_of_int 0; fzero; float_of_int 10; fzero; float_of_int 20; fzero;
          float_of_int 30; fzero].
Proof. vm_compute. reflexivity. Qed.

End Positions.


(** * Further properties *)

(** ** The coordinate converter on all floats *)

(** X1. On a float of the format, [from_float] is the exact 256-fold with
    the fractional part discarded: the scaling never rounds, the result is
    the mantissa shifted by the exponent plus 8, with the sign, and the
    conversion is undefined exactly when that does not fit 32 bits. *)
Theorem from_float_truncates (s : bool) (m : positive) (e : Z) :
  valid_binary prec emax (S754_finite s m e) = true ->
  from_float (S754_finite s m e)
  = (let z := cond_Zopp s (Z.shiftl (Zpos m) (e + 8)) in
     if in_int32 z then Some z else None)
  /\ (0 <= e + 8 -> Z.shiftl (Zpos m) (e + 8) = Zpos m * 2 ^ (e + 8))
  /\ (e + 8 < 0 -> Z.shiftl (Zpos m) (e + 8) = Zpos m / 2 ^ (- (e + 8))).
Proof.
  intros Hv. split; [| split].
  2:{ intros He. apply Z.shiftl_mul_pow2. exact He. }
  2:{ intros He. apply Z.shiftl_div_pow2. lia. }
  apply valid_finite_canonical in Hv as [Hc He].
  pose proof (digits2_pos_bounds m) as [Hlo Hhi].
  set (d := Zpos (digits2_pos m)) in *.
  unfold from_float, scalblnf, SFldexp.
  assert (Hf : fexp prec emax (d + (e + 8)) <= e + 8).
  { unfold fexp, SpecFloat.emin, prec, emax in *. lia. }
  rewrite binary_round_shl by exact Hf. cbv zeta. fold d.
  set (e' := fexp prec emax (d + (e + 8))) in *.
  change (emax - prec) with 104.
  assert (Hsh : Z.shiftl (Zpos (shl_pos m (e + 8 - e'))) e' = Z.shiftl (Zpos m) (e + 8)).
  { rewrite shl_pos_value by lia. rewrite <- Z.shiftl_mul_pow2 by lia.
    rewrite Z.shiftl_shiftl by lia. f_equal. lia. }
  destruct (Z.leb_spec e' 104) as [Hsmall | Hbig].
  - unfold int_of_float. rewrite Hsh. reflexivity.
  - simpl int_of_float.
    assert (He8 : 104 < e + 8) by lia.
    rewrite Z.shiftl_mul_pow2 by lia.
    assert (Hp : 2 ^ 105 <= 2 ^ (e + 8)) by (apply Z.pow_le_mono_r; lia).
    destruct (in_int32 _) eqn:Hin; [| reflexivity].
    apply in_int32_spec in Hin. exfalso.
    assert (2 ^ 105 <= Zpos m * 2 ^ (e + 8)) by nia.
    change (2 ^ 105) with (2 ^ 74 * 2 ^ 31) in *.
    unfold cond_Zopp in Hin. destruct s; lia.
Qed.

(** 2.75 becomes 704, -0.001953125 (half a unit) becomes 0. *)
Lemma from_float_truncates_witness :
  from_float (S754_finite false 11534336 (-22)) = Some 704
  /\ from_float (S754_finite true 8388608 (-32)) = Some 0.
Proof.
  split.
  - destruct (from_float_truncates false 11534336 (-22)) as [H _]; [reflexivity |].
    rewrite H. reflexivity.
  - destruct (from_float_truncates true 8388608 (-32)) as [H _]; [reflexivity |].
    rewrite H. reflexivity.
Defined.

(** X2. [from_float] answers only for finite floats, and what it answers
    fits [hb_position_t]; for a NaN or an infinity it is undefined. *)
Theorem from_float_range (f : float) (z : Z) :
  from_float f = Some z -> is_finite f = true /\ min_int32 <= z <= max_int32.
Proof.
  unfold from_float. intros H.
  assert (Hr : min_int32 <= z <= max_int32).
  { unfold int_of_float in H. destruct (scalblnf f 8) as [s | s | | s m e]; try discriminate.
    - injection H as <-. unfold min_int32, max_int32. lia.
    - destruct (in_int32 _) eqn:Hin; [| discriminate]. injection H as <-.
      unfold in_int32 in Hin. apply andb_true_iff in Hin. lia. }
  split; [| exact Hr].
  destruct f as [s | s | | s m e]; try reflexivity; discriminate.
Qed.

Lemma from_float_range_witness :
  is_finite (S754_finite false 11534336 (-22)) = true /\ min_int32 <= 704 <= max_int32.
Proof. apply (from_float_range (S754_finite false 11534336 (-22)) 704). reflexivity. Defined.


(** ** Rounding stays finite *)

Lemma shr_1_bounds (r : shr_record) :
  0 <= shr_m r -> 0 <= shr_m (shr_1 r) <= shr_m r.
Proof.
  destruct r as [m rb sb]. simpl shr_m at 1 3.
  destruct m as [| [p | p |] | p]; simpl; lia.
Qed.

Lemma shr_iter_bounds (p : positive) (r : shr_record) :
  0 <= shr_m r -> 0 <= shr_m (SpecFloat.iter_pos shr_1 p r) <= shr_m r.
Proof.
  rewrite iter_pos_iter. intros Hr.
  apply (Pos.iter_invariant p _ shr_1 (fun r' => 0 <= shr_m r' <= shr_m r)); [| lia].
  intros r' Hr'. pose proof (shr_1_bounds r'). lia.
Qed.

Lemma shr_bounds (mrs : shr_record) (e n : Z) :
  0 <= shr_m mrs ->
  0 <= shr_m (fst (shr mrs e n)) <= shr_m mrs /\ snd (shr mrs e n) = e + Z.max 0 n.
Proof.
  intros Hm. unfold shr. destruct n as [| p | p]; simpl fst; simpl snd.
  - split; lia.
  - split; [apply shr_iter_bounds; exact Hm | stdlib_names; lia].
  - split; lia.
Qed.

Lemma shr_record_of_loc_m (m : Z) (l : location) : shr_m (shr_record_of_loc m l) = m.
Proof. destruct l as [| []]; reflexivity. Qed.

Lemma round_nearest_even_bounds (m : Z) (l : location) :
  m <= round_nearest_even m l <= m + 1.
Proof.
  unfold round_nearest_even. destruct l as [| []]; stdlib_names; try lia.
  destruct (Z.even m); lia.
Qed.

Lemma Zdigits2_le (z k : Z) : 0 <= z < 2 ^ k -> 0 <= k -> 0 <= Zdigits2 z <= k.
Proof.
  intros Hz Hk. destruct z as [| p | p]; simpl; [lia | | lia].
  split; [lia | apply digits2_pos_le; lia].
Qed.

(** A mantissa below [2^50] with an exponent in [[-150, 51]] rounds to a
    zero or to a finite float. *)
Lemma binary_round_aux_finite (s : bool) (mx ex : Z) (l : location) :
  0 <= mx < 2 ^ 50 -> -150 <= ex <= 51 ->
  binary_round_aux prec emax s mx ex l = S754_zero s
  \/ exists m e, binary_round_aux prec emax s mx ex l = S754_finite s m e
                 /\ Zpos m <= mx + 1 /\ ex <= e <= ex + 53.
Proof.
  intros Hm He. unfold binary_round_aux, shr_fexp.
  pose proof (Zdigits2_le mx 50 Hm ltac:(lia)) as HD.
  set (n1 := fexp prec emax (Zdigits2 mx + ex) - ex).
  pose proof (shr_bounds (shr_record_of_loc mx l) ex n1) as Hs1.
  rewrite shr_record_of_loc_m in Hs1. specialize (Hs1 ltac:(lia)).
  destruct (shr (shr_record_of_loc mx l) ex n1) as [mrs' e'].
  simpl fst in Hs1. simpl snd in Hs1. destruct Hs1 as [Hm' He'].
  pose proof (round_nearest_even_bounds (shr_m mrs') (loc_of_shr_record mrs')) as Hr.
  set (r := round_nearest_even (shr_m mrs') (loc_of_shr_record mrs')) in *.
  assert (Hr50 : 0 <= r < 2 ^ 51) by (change (2 ^ 51) with (2 * 2 ^ 50); lia).
  pose proof (Zdigits2_le r 51 Hr50 ltac:(lia)) as HD'.
  set (n2 := fexp prec emax (Zdigits2 r + e') - e').
  pose proof (shr_bounds (shr_record_of_loc r loc_Exact) e' n2) as Hs2.
  rewrite shr_record_of_loc_m in Hs2. specialize (Hs2 ltac:(lia)).
  destruct (shr (shr_record_of_loc r loc_Exact) e' n2) as [mrs'' e''].
  simpl fst in Hs2. simpl snd in Hs2. destruct Hs2 as [Hm'' He''].
  assert (Hn1 : n1 <= 26).
  { unfold n1, fexp, SpecFloat.emin, prec, emax. lia. }
  assert (Hn2 : n2 <= 27).
  { unfold n2, fexp, SpecFloat.emin, prec, emax. lia. }
  destruct (shr_m mrs'') as [| m | m] eqn:Hmm; [left; reflexivity | right | lia].
  exists m, e''. change (emax - prec) with 104. stdlib_names.
  destruct (Z.leb_spec e'' 104); [| lia].
  split; [reflexivity | lia].
Qed.

Lemma shl_align_gt (m : positive) (e e' : Z) : e < e' -> shl_align m e e' = (m, e).
Proof.
  intros He. unfold shl_align. stdlib_names.
  destruct (e' - e) as [| d | d] eqn:Hd; [reflexivity | reflexivity | lia].
Qed.

(** The same for [binary_round], which first aligns the mantissa. *)
Lemma binary_round_finite (s : bool) (m : positive) (e : Z) :
  Zpos m < 2 ^ 40 -> -100 <= e <= 45 ->
  binary_round prec emax s m e = S754_zero s
  \/ exists m' e', binary_round prec emax s m e = S754_finite s m' e'
                   /\ Zpos m' <= Z.max (Zpos m) (2 ^ 24) + 1 /\ e - 23 <= e' <= e + 53.
Proof.
  intros Hm He. unfold binary_round.
  pose proof (digits2_pos_bounds m) as [Hlo Hhi].
  set (d := Zpos (digits2_pos m)) in *.
  assert (Hd : 1 <= d <= 40).
  { split; [unfold d; lia | apply digits2_pos_le; lia]. }
  set (f := fexp prec emax (d + e)).
  assert (Hf : d + e - 24 <= f /\ (f = d + e - 24 \/ f = -149)).
  { unfold f, fexp, SpecFloat.emin, prec, emax. lia. }
  destruct (Z.le_gt_cases f e) as [Hle | Hgt].
  - rewrite shl_align_le by exact Hle.
    assert (Hmz : Zpos (shl_pos m (e - f)) < 2 ^ 24).
    { assert (Hdig : Zpos (digits2_pos (shl_pos m (e - f))) <= 24).
      { rewrite shl_pos_digits by lia. fold d. lia. }
      pose proof (digits2_pos_bounds (shl_pos m (e - f))) as [_ Hh].
      assert (2 ^ Zpos (digits2_pos (shl_pos m (e - f))) <= 2 ^ 24)
        by (apply Z.pow_le_mono_r; lia).
      lia. }
    destruct (binary_round_aux_finite s (Zpos (shl_pos m (e - f))) f loc_Exact)
      as [Hz | (m' & e' & Hr & Hm' & He')].
    + change (2 ^ 50) with (2 ^ 26 * 2 ^ 24). lia.
    + lia.
    + left. exact Hz.
    + right. exists m', e'. split; [exact Hr | lia].
  - rewrite shl_align_gt by exact Hgt.
    destruct (binary_round_aux_finite s (Zpos m) e loc_Exact)
      as [Hz | (m' & e' & Hr & Hm' & He')].
    + change (2 ^ 50) with (2 ^ 10 * 2 ^ 40). lia.
    + lia.
    + left. exact Hz.
    + right. exists m', e'. split; [exact Hr | lia].
Qed.

(** X3. [to_float] of a 32-bit value is never a NaN or an infinity. *)
Theorem to_float_finite (v : Z) : in_int32 v = true -> is_finite (to_float v) = true.
Proof.
  intros Hv%in_int32_spec. unfold to_float, float_of_int, binary_normalize.
  assert (Hstep : forall s p, Zpos p <= 2 ^ 31 ->
            is_finite (scalblnf (binary_round prec emax s p 0) (-8)) = true).
  { intros s p Hp.
    destruct (binary_round_finite s p 0) as [-> | (m1 & e1 & -> & Hm1 & He1)];
      [change (2 ^ 40) with (2 ^ 9 * 2 ^ 31); lia | lia | reflexivity |].
    unfold scalblnf, SFldexp.
    destruct (binary_round_finite s m1 (e1 + -8)) as [-> | (m2 & e2 & -> & _)];
      [| lia | reflexivity | reflexivity].
    change (2 ^ 40) with (2 ^ 9 * 2 ^ 31).
    change (2 ^ 24) with 16777216 in Hm1. change (2 ^ 31) with 2147483648 in *. lia. }
  destruct v as [| p | p]; [reflexivity | apply Hstep; lia | apply Hstep; lia].
Qed.

Lemma to_float_finite_witness : is_finite (to_float 2147483647) = true.
Proof. apply to_float_finite. reflexivity. Defined.


(** ** The font callbacks, continued *)

(** X4. When the provider's horizontal advance is the device value of a
    fixed-point number that both spaces hold, the advance callback hands
    the engine that number, whatever the vertical advance is; converting
    it back gives the provider's advance again. *)
Theorem icu_le_hb_font_get_glyph_h_advance_exact (font_data : LEFontInstance)
    (glyph v : Z) :
  representable v = true ->
  fX (getGlyphAdvance font_data glyph) = to_float v ->
  icu_le_hb_font_get_glyph_h_advance font_data glyph = Some v
  /\ to_float v = fX (getGlyphAdvance font_data glyph).
Proof.
  intros Hr Ha. unfold icu_le_hb_font_get_glyph_h_advance. rewrite Ha.
  split; [apply from_float_to_float; exact Hr | reflexivity].
Qed.

Lemma icu_le_hb_font_get_glyph_h_advance_exact_witness :
  icu_le_hb_font_get_glyph_h_advance Fixture.font 43 = Some 2560
  /\ to_float 2560 = fX (getGlyphAdvance Fixture.font 43).
Proof.
  apply (icu_le_hb_font_get_glyph_h_advance_exact Fixture.font 43 2560); reflexivity.
Defined.

(** X5. The font of a new session is bound to the font instance it was
    constructed with: its table callback returns the provider's table
    bytes (none for a table the provider lacks), and its glyph and
    advance callbacks answer from the provider. *)
Theorem LayoutEngine_ctor_binds_font `{Shaper} (alloc : hb_alloc) (raw_x raw_y : float)
    (fontInstance : LEFontInstance) (scriptCode languageCode typoFlags : Z)
    (success success' : LEErrorCode) (this : LayoutEngine) :
  LayoutEngine_ctor alloc raw_x raw_y fontInstance scriptCode languageCode typoFlags success
  = Some (Some this, success') ->
  font_data (fHbFont this) = Some fontInstance
  /\ (forall tag, face (fHbFont this) tag = default [] (getFontTable fontInstance tag))
  /\ exists k,
       klass (fHbFont this) = Some k
       /\ (forall unicode vs glyph h, glyph <> NULL ->
             glyph_func k fontInstance unicode vs glyph h
             = Some (true, <[glyph := mapCharToGlyph fontInstance unicode]> h))
       /\ (forall glyph,
             glyph_h_advance_func k fontInstance glyph
             = from_float (fX (getGlyphAdvance fontInstance glyph))).
Proof.
  intros Hc. apply LayoutEngine_ctor_session in Hc as (xs & ys & xp & yp & Hc).
  destruct Hc as (_ & _ & _ & _ & _ & _ & _ & _ & _ & ->).
  simpl. split; [reflexivity |]. split.
  - intros tag. unfold icu_le_hb_reference_table, hb_blob_create.
    destruct (getFontTable fontInstance tag) as [bytes |]; [apply firstn_all | reflexivity].
  - exists icu_le_hb_get_font_funcs. split; [reflexivity |]. split.
    + intros unicode vs glyph h Hg. simpl. unfold icu_le_hb_font_get_glyph.
      rewrite poke_Some by exact Hg. simpl.
      destruct (Z.eqb_spec glyph NULL); [contradiction | reflexivity].
    + reflexivity.
Qed.

Lemma LayoutEngine_ctor_binds_font_witness :
  font_data (fHbFont Fixture.engine) = Some Fixture.font
  /\ face (fHbFont Fixture.engine) 1735162214 = [].
Proof.
  destruct (@LayoutEngine_ctor_binds_font Fixture.shaper Fixture.alloc_ok fzero fzero
              Fixture.font 25 0 3 LE_NO_ERROR LE_NO_ERROR Fixture.engine)
    as (Hd & Hf & _); [exact Fixture_engine_constructed |].
  split; [exact Hd | apply Hf].
Defined.

(** ** Construction and the factory *)

(** X6. The factory returns a session exactly when it reports no failure:
    an already failed status comes back untouched with no session;
    storage for the object, a buffer or a font that cannot be allocated
    gives no session and [LE_MEMORY_ALLOCATION_ERROR]; otherwise the
    session comes with the incoming status, the typographic flags as
    given and an empty buffer. The factory has no defined outcome exactly
    when, past the allocations, a font scale does not fit
    [hb_position_t], the vertical scale is the least [hb_position_t],
    whose negation overflows, or a pixels-per-em value does not fit
    [unsigned int]. *)
Theorem layoutEngineFactory_typoFlags_outcome `{Shaper} (object_allocated : bool)
    (alloc : hb_alloc) (raw_x raw_y : float) (fontInstance : LEFontInstance)
    (scriptCode languageCode typoFlags : Z) (success : LEErrorCode) :
  match layoutEngineFactory_typoFlags object_allocated alloc raw_x raw_y fontInstance
          scriptCode languageCode typoFlags success with
  | Some (result, st) =>
      (is_Some result <-> LE_FAILURE st = false)
      /\ (LE_FAILURE success = true -> result = None /\ st = success)
      /\ (LE_FAILURE success = false -> result = None -> st = LE_MEMORY_ALLOCATION_ERROR)
      /\ (result = None <->
          LE_FAILURE success = true \/ object_allocated = false
          \/ buffer_allocated alloc = false \/ font_allocated alloc = false)
      /\ (forall this, result = Some this ->
            st = success /\ fTypoFlags this = typoFlags /\ getGlyphCount this = 0)
  | None => True
  end
  /\ (layoutEngineFactory_typoFlags object_allocated alloc raw_x raw_y fontInstance
        scriptCode languageCode typoFlags success = None
      <-> LE_FAILURE success = false /\ object_allocated = true
          /\ buffer_allocated alloc = true /\ font_allocated alloc = true
          /\ (from_float (fmul (getXPixelsPerEm fontInstance)
                               (getScaleFactorX fontInstance)) = None
              \/ from_float (fmul (getYPixelsPerEm fontInstance)
                                  (getScaleFactorY fontInstance)) = None
              \/ from_float (fmul (getYPixelsPerEm fontInstance)
                                  (getScaleFactorY fontInstance)) = Some min_int32
              \/ uint_of_float (getXPixelsPerEm fontInstance) = None
              \/ uint_of_float (getYPixelsPerEm fontInstance) = None)).
Proof.
  assert (Hno : forall st, LE_FAILURE st = true ->
            (LE_FAILURE success = true -> st = success) ->
            (LE_FAILURE success = false -> st = LE_MEMORY_ALLOCATION_ERROR) ->
            (LE_FAILURE success = true \/ object_allocated = false
             \/ buffer_allocated alloc = false \/ font_allocated alloc = false) ->
            (is_Some (@None LayoutEngine) <-> LE_FAILURE st = false)
            /\ (LE_FAILURE success = true -> @None LayoutEngine = None /\ st = success)
            /\ (LE_FAILURE success = false -> @None LayoutEngine = None ->
                st = LE_MEMORY_ALLOCATION_ERROR)
            /\ (@None LayoutEngine = None <->
                LE_FAILURE success = true \/ object_allocated = false
                \/ buffer_allocated alloc = false \/ font_allocated alloc = false)
            /\ (forall this, @None LayoutEngine = Some this ->
                  st = success /\ fTypoFlags this = typoFlags /\ getGlyphCount this = 0)).
  { intros st Hst H1 H2 H3.
    split; [split; [intros [? ?]; discriminate | rewrite Hst; discriminate] |].
    split; [auto |]. split; [auto |].
    split; [split; auto | intros this Hx; discriminate]. }
  unfold layoutEngineFactory_typoFlags, LayoutEngine_ctor.
  destruct (LE_FAILURE success) eqn:Hs.
  { split; [apply (Hno success); auto; discriminate |].
    split; [discriminate | intros (Hc & _); discriminate]. }
  destruct object_allocated.
  2:{ simpl. rewrite Hs.
      split; [apply (Hno LE_MEMORY_ALLOCATION_ERROR); auto; discriminate |].
      split; [discriminate | intros (_ & Hc & _); discriminate]. }
  destruct (buffer_allocated alloc).
  2:{ simpl. split; [apply (Hno LE_MEMORY_ALLOCATION_ERROR); auto; discriminate |].
      split; [discriminate | intros (_ & _ & Hc & _); discriminate]. }
  destruct (font_allocated alloc).
  2:{ simpl. split; [apply (Hno LE_MEMORY_ALLOCATION_ERROR); auto; discriminate |].
      split; [discriminate | intros (_ & _ & _ & Hc & _); discriminate]. }
  simpl.
  destruct (from_float (fmul (getXPixelsPerEm fontInstance) _)) as [xs |];
    simpl; [| split; [exact I | split; auto 10]].
  destruct (from_float (fmul (getYPixelsPerEm fontInstance) _)) as [ys |];
    simpl; [| split; [exact I | split; auto 10]].
  destruct (neg32 ys) as [nys |] eqn:Hn; simpl.
  2:{ apply neg32_None in Hn as ->. split; [exact I | split; auto 10]. }
  assert (Hmin : ys <> min_int32).
  { intros Hm. apply neg32_None in Hm. congruence. }
  destruct (uint_of_float (getXPixelsPerEm fontInstance)) as [xp |];
    simpl; [| split; [exact I | split; auto 10]].
  destruct (uint_of_float (getYPixelsPerEm fontInstance)) as [yp |];
    simpl; [| split; [exact I | split; auto 10]].
  rewrite Hs. split.
  - split; [split; [intros _; exact Hs | intros _; eexists; reflexivity] |].
    split; [discriminate |]. split; [discriminate |].
    split; [split; [discriminate | intros [? | [? | [? | ?]]]; discriminate] |].
    intros this [= <-]. repeat split.
  - split; [discriminate |].
    intros (_ & _ & _ & _ & [Hc | [Hc | [Hc | [Hc | Hc]]]]); try discriminate.
    injection Hc as Hc. contradiction.
Qed.

(** What the factory returns when it returns a session. *)
Lemma layoutEngineFactory_typoFlags_session `{Shaper} (object_allocated : bool)
    (alloc : hb_alloc)
    (raw_x raw_y : float) (fontInstance : LEFontInstance)
    (scriptCode languageCode typoFlags : Z) (success st : LEErrorCode)
    (this : LayoutEngine) :
  layoutEngineFactory_typoFlags object_allocated alloc raw_x raw_y fontInstance
    scriptCode languageCode typoFlags success = Some (Some this, st) ->
  exists xs ys xp yp,
    from_float (fmul (getXPixelsPerEm fontInstance) (getScaleFactorX fontInstance))
    = Some xs
    /\ from_float (fmul (getYPixelsPerEm fontInstance) (getScaleFactorY fontInstance))
       = Some ys
    /\ (uint_of_float (getXPixelsPerEm fontInstance) = Some xp
        /\ uint_of_float (getYPixelsPerEm fontInstance) = Some yp
        /\ object_allocated = true /\ LE_FAILURE success = false /\ st = success)
    /\ this = {|
         fHbFont := {| face := icu_le_hb_reference_table fontInstance;
                       klass := Some icu_le_hb_get_font_funcs;
                       font_data := Some fontInstance;
                       x_scale := xs; y_scale := - ys;
                       x_ppem := xp; y_ppem := yp |};
         fHbBuffer := {| unicode_funcs := hb_icu_unicode_funcs;
                         script := hb_icu_script_to_script scriptCode;
                         direction := HB_DIRECTION_INVALID;
                         flags := HB_BUFFER_FLAG_DEFAULT; replacement := 65533;
                         glyphs := []; context_pre := []; context_post := [] |};
         fTypoFlags := typoFlags; x := raw_x; y := raw_y |}.
Proof.
  unfold layoutEngineFactory_typoFlags. intros Hf.
  destruct (LE_FAILURE success) eqn:Hs; [discriminate |].
  destruct object_allocated; [| simpl in Hf; rewrite Hs in Hf; discriminate].
  destruct (LayoutEngine_ctor _ _ _ _ _ _ _ _) as [[[that |] st'] |] eqn:Hc;
    simpl in Hf; try discriminate.
  2:{ destruct (LE_FAILURE st'); discriminate. }
  apply LayoutEngine_ctor_session in Hc
    as (xs & ys & xp & yp & _ & -> & _ & _ & Hxs & Hys & _ & Hxp & Hyp & ->).
  rewrite Hs in Hf. injection Hf as <- <-.
  exists xs, ys, xp, yp. repeat split; assumption.
Qed.

(** X7. The factory that takes no flags gives a session with kerning and
    ligatures both enabled. *)
Theorem layoutEngineFactory_default_flags `{Shaper} (object_allocated : bool)
    (alloc : hb_alloc)
    (raw_x raw_y : float) (fontInstance : LEFontInstance)
    (scriptCode languageCode : Z) (success st : LEErrorCode) (this : LayoutEngine) :
  layoutEngineFactory object_allocated alloc raw_x raw_y fontInstance scriptCode
    languageCode success
  = Some (Some this, st) ->
  fTypoFlags this = Z.lor kTypoFlagKern kTypoFlagLiga
  /\ Z.land (fTypoFlags this) kTypoFlagKern = kTypoFlagKern
  /\ Z.land (fTypoFlags this) kTypoFlagLiga = kTypoFlagLiga.
Proof.
  unfold layoutEngineFactory. intros Hf.
  apply layoutEngineFactory_typoFlags_session in Hf
    as (xs & ys & xp & yp & _ & _ & _ & ->).
  repeat split.
Qed.

Lemma layoutEngineFactory_default_flags_witness :
  fTypoFlags Fixture.engine = Z.lor kTypoFlagKern kTypoFlagLiga.
Proof.
  destruct (@layoutEngineFactory_default_flags Fixture.shaper true Fixture.alloc_ok
              fzero fzero Fixture.font 25 0 LE_NO_ERROR LE_NO_ERROR Fixture.engine)
    as [Hf _].
  - unfold layoutEngineFactory, layoutEngineFactory_typoFlags.
    rewrite Fixture_engine_constructed. reflexivity.
  - exact Hf.
Defined.


(** ** The array accessors, continued *)

Lemma to_int32_add_l (a b : Z) : to_int32 (to_int32 a + b) = to_int32 (a + b).
Proof.
  unfold to_int32.
  replace ((a + 2 ^ 31) mod 2 ^ 32 - 2 ^ 31 + b + 2 ^ 31)
    with ((a + 2 ^ 31) mod 2 ^ 32 + b) by lia.
  rewrite Zplus_mod_idemp_l. f_equal. f_equal. lia.
Qed.

Lemma copy_loop_ext {A : Type} (f f' : hb_glyph_t -> A) (info : list hb_glyph_t) :
  (forall g, f g = f' g) ->
  forall (i : nat) (out : list A), copy_loop f info i out = copy_loop f' info i out.
Proof.
  intros Hf. induction info as [| g rest IH]; intros i out; simpl; [reflexivity |].
  rewrite Hf. destruct (array_store out i (f' g)) as [out' |]; simpl; [apply IH | reflexivity].
Qed.

(** The loop runs off an array that is too short. *)
Lemma copy_loop_short {A : Type} (f : hb_glyph_t -> A) (info : list hb_glyph_t) :
  forall (i : nat) (out : list A),
    (i <= length out < i + length info)%nat -> copy_loop f info i out = None.
Proof.
  induction info as [| g rest IH]; intros i out Hlen; simpl in *; [lia |].
  unfold array_store. case_decide as Hi; simpl; [| reflexivity].
  apply IH. rewrite length_insert. lia.
Qed.

Lemma copy_loop_defined {A : Type} (f : hb_glyph_t -> A) (info : list hb_glyph_t)
    (out : list A) :
  is_Some (copy_loop f info 0 out) <-> (length info <= length out)%nat.
Proof.
  split.
  - intros [out' Hc]. destruct (le_lt_dec (length info) (length out)) as [Hle | Hlt];
      [exact Hle |].
    rewrite copy_loop_short in Hc by lia. discriminate.
  - intros Hle. destruct (copy_loop_spec f info 0 out) as (out' & Hc & _); [simpl; lia |].
    rewrite Hc. eexists. reflexivity.
Qed.

(** X8. [getCharIndices] with an index base, on an array that holds the
    buffer: entry [i] is the cluster value of glyph [i] plus the base, in
    [le_int32] arithmetic, which is what the variant without a base
    writes, shifted by the base; the entries past the glyph count keep
    their values; with base 0 the two variants write the same array. *)
Theorem getCharIndices_base_spec (this : LayoutEngine) (charIndices : list Z)
    (indexBase : Z) (success : LEErrorCode) :
  LE_FAILURE success = false ->
  (hb_buffer_get_length (fHbBuffer this) <= length charIndices)%nat ->
  exists out plain,
    getCharIndices_base this charIndices indexBase success = Some out
    /\ getCharIndices this charIndices success = Some plain
    /\ length out = length charIndices
    /\ (forall i g, glyphs (fHbBuffer this) !! i = Some g ->
          out !! i = Some (to_int32 (cluster (info g) + indexBase)))
    /\ (forall i c, (i < hb_buffer_get_length (fHbBuffer this))%nat ->
          plain !! i = Some c -> out !! i = Some (add32 c indexBase))
    /\ (forall j, (hb_buffer_get_length (fHbBuffer this) <= j)%nat ->
          out !! j = charIndices !! j /\ plain !! j = charIndices !! j)
    /\ (indexBase = 0 -> out = plain).
Proof.
  unfold hb_buffer_get_length. intros Hs Hlen.
  unfold getCharIndices_base, getCharIndices, hb_buffer_get_glyph_infos. rewrite Hs.
  destruct (copy_loop_spec (fun g => to_int32 (cluster (info g) + indexBase))
              (glyphs (fHbBuffer this)) 0 charIndices)
    as (out & Hc & Hl & Hin & Hout); [simpl; lia |].
  destruct (copy_loop_spec (fun g => to_int32 (cluster (info g)))
              (glyphs (fHbBuffer this)) 0 charIndices)
    as (plain & Hc' & Hl' & Hin' & Hout'); [simpl; lia |].
  exists out, plain. split; [exact Hc |]. split; [exact Hc' |]. split; [exact Hl |].
  split; [intros i g Hg; exact (Hin i g Hg) |]. split.
  - intros i c Hi Hp.
    destruct (lookup_lt_is_Some_2 (glyphs (fHbBuffer this)) i Hi) as [g Hg].
    pose proof (Hin' i g Hg) as Hp'. simpl in Hp'. rewrite Hp in Hp'. injection Hp' as ->.
    unfold add32. rewrite to_int32_add_l. exact (Hin i g Hg).
  - split.
    + intros j Hj. split; [apply Hout | apply Hout']; simpl; lia.
    + intros ->. assert (He : Some out = Some plain); [| injection He; auto].
      rewrite <- Hc, <- Hc'. apply copy_loop_ext.
      intros g. rewrite Z.add_0_r. reflexivity.
Qed.

Lemma getCharIndices_base_spec_witness :
  exists out plain,
    getCharIndices_base Fixture.engine_ell [9; 9; 9; 9] 1 LE_NO_ERROR = Some out
    /\ getCharIndices Fixture.engine_ell [9; 9; 9; 9] LE_NO_ERROR = Some plain
    /\ out !! 2%nat = Some 3 /\ out !! 3%nat = Some 9.
Proof.
  destruct (getCharIndices_base_spec Fixture.engine_ell [9; 9; 9; 9] 1 LE_NO_ERROR)
    as (out & plain & Hc & Hp & _ & Hin & _ & Hout & _);
    [reflexivity | unfold hb_buffer_get_length; simpl; lia |].
  exists out, plain. split; [exact Hc |]. split; [exact Hp |].
  split; [exact (Hin 2%nat _ eq_refl) |].
  destruct (Hout 3%nat) as [H3 _]; [unfold hb_buffer_get_length; simpl; lia |]. exact H3.
Defined.

Lemma lor_land_absorb (c e : Z) : Z.land (Z.lor c e) e = e.
Proof.
  apply Z.bits_inj'. intros n Hn. rewrite Z.land_spec, Z.lor_spec.
  destruct (Z.testbit c n), (Z.testbit e n); reflexivity.
Qed.

Lemma lor_ldiff_disjoint (c e : Z) : Z.land c e = 0 -> Z.ldiff (Z.lor c e) e = c.
Proof.
  intros Hd. apply Z.bits_inj'. intros n Hn. rewrite Z.ldiff_spec, Z.lor_spec.
  assert (Hb : Z.testbit (Z.land c e) n = false) by (rewrite Hd; apply Z.bits_0).
  rewrite Z.land_spec in Hb.
  destruct (Z.testbit c n), (Z.testbit e n); try reflexivity; discriminate.
Qed.

(** X9. [getGlyphs] with extra bits, on an array that holds the buffer:
    entry [i] is what the variant without extra bits writes, the glyph
    code, with the extra bits or-ed in, so every extra bit is set in it,
    and a glyph code that shares no bit with the extra bits is what is
    left when they are cleared again; the entries past the glyph count
    keep their values; with no extra bits the two variants write the same
    array. *)
Theorem getGlyphs_extraBits_spec (this : LayoutEngine) (glyphs : list Z)
    (extraBits : Z) (success : LEErrorCode) :
  LE_FAILURE success = false ->
  (hb_buffer_get_length (fHbBuffer this) <= length glyphs)%nat ->
  exists out plain,
    getGlyphs_extraBits this glyphs extraBits success = Some out
    /\ getGlyphs this glyphs success = Some plain
    /\ length out = length glyphs
    /\ (forall i g, HarfBuzz.glyphs (fHbBuffer this) !! i = Some g ->
          plain !! i = Some (codepoint (info g)))
    /\ (forall i c, (i < hb_buffer_get_length (fHbBuffer this))%nat ->
          plain !! i = Some c ->
          exists v, out !! i = Some v
            /\ v = Z.lor c extraBits
            /\ Z.land v extraBits = extraBits
            /\ (Z.land c extraBits = 0 -> Z.ldiff v extraBits = c))
    /\ (forall j, (hb_buffer_get_length (fHbBuffer this) <= j)%nat ->
          out !! j = glyphs !! j /\ plain !! j = glyphs !! j)
    /\ (extraBits = 0 -> out = plain).
Proof.
  unfold hb_buffer_get_length. intros Hs Hlen.
  unfold getGlyphs_extraBits, getGlyphs, hb_buffer_get_glyph_infos. rewrite Hs.
  destruct (copy_loop_spec (fun g => Z.lor (codepoint (info g)) extraBits)
              (HarfBuzz.glyphs (fHbBuffer this)) 0 glyphs)
    as (out & Hc & Hl & Hin & Hout); [simpl; lia |].
  destruct (copy_loop_spec (fun g => codepoint (info g))
              (HarfBuzz.glyphs (fHbBuffer this)) 0 glyphs)
    as (plain & Hc' & Hl' & Hin' & Hout'); [simpl; lia |].
  exists out, plain. split; [exact Hc |]. split; [exact Hc' |]. split; [exact Hl |].
  split; [intros i g Hg; exact (Hin' i g Hg) |]. split.
  - intros i c Hi Hp.
    destruct (lookup_lt_is_Some_2 (HarfBuzz.glyphs (fHbBuffer this)) i Hi) as [g Hg].
    pose proof (Hin' i g Hg) as Hp'. simpl in Hp'. rewrite Hp in Hp'. injection Hp' as ->.
    exists (Z.lor (codepoint (info g)) extraBits).
    split; [exact (Hin i g Hg) |]. split; [reflexivity |].
    split; [apply lor_land_absorb | apply lor_ldiff_disjoint].
  - split.
    + intros j Hj. split; [apply Hout | apply Hout']; simpl; lia.
    + intros ->. assert (He : Some out = Some plain); [| injection He; auto].
      rewrite <- Hc, <- Hc'. apply copy_loop_ext.
      intros g. apply Z.lor_0_r.
Qed.

Lemma getGlyphs_extraBits_spec_witness :
  exists out plain,
    getGlyphs_extraBits Fixture.engine_ell [0; 0; 0; 7] 65536 LE_NO_ERROR = Some out
    /\ getGlyphs Fixture.engine_ell [0; 0; 0; 7] LE_NO_ERROR = Some plain
    /\ plain !! 1%nat = Some 79
    /\ out !! 3%nat = Some 7.
Proof.
  destruct (getGlyphs_extraBits_spec Fixture.engine_ell [0; 0; 0; 7] 65536 LE_NO_ERROR)
    as (out & plain & Hc & Hp & _ & Hin & _ & Hout & _);
    [reflexivity | unfold hb_buffer_get_length; simpl; lia |].
  exists out, plain. split; [exact Hc |]. split; [exact Hp |].
  split; [exact (Hin 1%nat _ eq_refl) |].
  destruct (Hout 3%nat) as [H3 _]; [unfold hb_buffer_get_length; simpl; lia |]. exact H3.
Defined.

(** X10. The four array accessors stay inside the caller's array exactly
    when it has room for one entry per glyph of the buffer, or the
    incoming status is a failure, in which case they write nothing. *)
Theorem accessors_array_bound (this : LayoutEngine) (a : list Z)
    (indexBase extraBits : Z) (success : LEErrorCode) :
  (is_Some (getCharIndices this a success)
   <-> LE_FAILURE success = true \/ (hb_buffer_get_length (fHbBuffer this) <= length a)%nat)
  /\ (is_Some (getCharIndices_base this a indexBase success)
      <-> LE_FAILURE success = true
          \/ (hb_buffer_get_length (fHbBuffer this) <= length a)%nat)
  /\ (is_Some (getGlyphs this a success)
      <-> LE_FAILURE success = true
          \/ (hb_buffer_get_length (fHbBuffer this) <= length a)%nat)
  /\ (is_Some (getGlyphs_extraBits this a extraBits success)
      <-> LE_FAILURE success = true
          \/ (hb_buffer_get_length (fHbBuffer this) <= length a)%nat)
  /\ (LE_FAILURE success = true ->
      getCharIndices this a success = Some a
      /\ getCharIndices_base this a indexBase success = Some a
      /\ getGlyphs this a success = Some a
      /\ getGlyphs_extraBits this a extraBits success = Some a).
Proof.
  unfold getCharIndices, getCharIndices_base, getGlyphs, getGlyphs_extraBits,
    hb_buffer_get_glyph_infos, hb_buffer_get_length.
  destruct (LE_FAILURE success).
  - repeat split; try (intros _; first [left; reflexivity | eexists; reflexivity]).
  - rewrite !copy_loop_defined.
    repeat split; try discriminate; try (intros [? | ?]; [discriminate | assumption]);
      intros ?; right; assumption.
Qed.


(** ** Positions: the room the caller owes *)

Lemma array_store_None {A : Type} (a : list A) (i : nat) (v : A) :
  (length a <= i)%nat -> array_store a i v = None.
Proof. intros Hi. unfold array_store. rewrite decide_False by lia. reflexivity. Qed.

(** The loop of [getGlyphPositions] runs off an array that is too short. *)
Lemma getGlyphPositions_loop_short (pos : list hb_glyph_t) :
  forall (i : nat) (px py : float) (positions : list float),
    (2 * i <= length positions < 2 * (i + length pos))%nat ->
    getGlyphPositions_loop pos i px py positions = None.
Proof.
  induction pos as [| g rest IH]; intros i px py positions Hlen; cbn [length] in Hlen;
    [lia |].
  cbn [getGlyphPositions_loop].
  destruct (le_lt_dec (length positions) (2 * i)) as [H0 | H0].
  { rewrite array_store_None by exact H0. reflexivity. }
  rewrite array_store_Some by exact H0. cbn [mbind option_bind].
  destruct (le_lt_dec (length positions) (2 * i + 1)) as [H1 | H1].
  { rewrite array_store_None by (rewrite length_insert; exact H1). reflexivity. }
  rewrite array_store_Some by (rewrite length_insert; exact H1). cbn [mbind option_bind].
  apply IH. rewrite !length_insert. lia.
Qed.

(** X11. [getGlyphPositions] stays inside the caller's array exactly when
    it holds two floats per glyph and two more, or the incoming status is
    a failure, in which case it writes nothing; an empty buffer still
    takes two floats, which receive the stored origin. *)
Theorem getGlyphPositions_array_bound (this : LayoutEngine) (positions : list float)
    (success : LEErrorCode) :
  (is_Some (getGlyphPositions this positions success)
   <-> LE_FAILURE success = true
       \/ (2 * hb_buffer_get_length (fHbBuffer this) + 2 <= length positions)%nat)
  /\ (LE_FAILURE success = true -> getGlyphPositions this positions success = Some positions)
  /\ (LE_FAILURE success = false -> glyphs (fHbBuffer this) = [] ->
      forall p0 p1 rest, positions = p0 :: p1 :: rest ->
        getGlyphPositions this positions success = Some (x this :: y this :: rest)).
Proof.
  destruct (LE_FAILURE success) eqn:Hs.
  - unfold getGlyphPositions. rewrite Hs.
    split; [split; [auto | intros _; eexists; reflexivity] |].
    split; [reflexivity | discriminate].
  - split; [split |].
    + intros [out Hc]. right.
      destruct (le_lt_dec (2 * hb_buffer_get_length (fHbBuffer this) + 2) (length positions))
        as [Hle | Hlt]; [exact Hle | exfalso].
      unfold getGlyphPositions, hb_buffer_get_glyph_positions, hb_buffer_get_length in *.
      rewrite Hs in Hc. set (gs := glyphs (fHbBuffer this)) in *.
      destruct (le_lt_dec (2 * length gs) (length positions)) as [Hge | Hsh].
      * destruct (getGlyphPositions_loop_spec gs 0%nat (x this) (y this) positions)
          as (out' & Hloop & Hlo & _); [simpl; lia |].
        rewrite Hloop in Hc. cbn [mbind option_bind] in Hc. simpl (0 + length gs)%nat in Hc.
        destruct (le_lt_dec (length positions) (2 * length gs)) as [H0 | H0].
        { rewrite array_store_None in Hc by lia. discriminate. }
        rewrite array_store_Some in Hc by lia. cbn [mbind option_bind] in Hc.
        rewrite array_store_None in Hc by (rewrite length_insert; lia). discriminate.
      * rewrite getGlyphPositions_loop_short in Hc by (simpl; lia). discriminate.
    + intros [Hf | Hle]; [discriminate |].
      destruct (getGlyphPositions_correct this positions success Hs Hle) as (out & Hc & _).
      rewrite Hc. eexists. reflexivity.
    + split; [discriminate |].
      intros _ Hg p0 p1 rest ->.
      unfold getGlyphPositions, hb_buffer_get_glyph_positions. rewrite Hs, Hg. reflexivity.
Qed.

(** ** One glyph's position: the indices that are in range *)

(** The loop of [getGlyphPosition] reads past the positions when it is
    asked for more rounds than there are glyphs. *)
Lemma getGlyphPosition_loop_short (pos : list hb_glyph_t) :
  forall (n i : nat) (px py : float),
    (i <= length pos < i + n)%nat -> getGlyphPosition_loop pos i n px py = None.
Proof.
  induction n as [| n IH]; intros i px py Hlen; [lia |].
  cbn [getGlyphPosition_loop].
  destruct (pos !! i) as [g |] eqn:Hg; cbn [mbind option_bind]; [| reflexivity].
  apply IH. apply lookup_lt_Some in Hg. lia.
Qed.

(** X12. [getGlyphPosition] reads inside the buffer exactly for the glyph
    indices [0 <= glyphIndex < n], [n] the glyph count, or when the
    incoming status is a failure, in which case the two coordinates keep
    what they held. The index [n] of the trailing pair that
    [getGlyphPositions] writes is not among them, nor is any index of an
    empty buffer. *)
Theorem getGlyphPosition_index_bound (this : LayoutEngine) (glyphIndex : Z)
    (x0 y0 : float) (success : LEErrorCode) :
  in_int32 glyphIndex = true ->
  (is_Some (getGlyphPosition this glyphIndex x0 y0 success)
   <-> LE_FAILURE success = true
       \/ 0 <= glyphIndex < Z.of_nat (hb_buffer_get_length (fHbBuffer this)))
  /\ (LE_FAILURE success = true ->
      getGlyphPosition this glyphIndex x0 y0 success = Some (x0, y0))
  /\ (LE_FAILURE success = false ->
      getGlyphPosition this (Z.of_nat (hb_buffer_get_length (fHbBuffer this))) x0 y0 success
      = None).
Proof.
  intros Hr. apply in_int32_spec in Hr.
  assert (Hlast : forall n : nat,
            n = length (glyphs (fHbBuffer this)) -> LE_FAILURE success = false ->
            getGlyphPosition this (Z.of_nat n) x0 y0 success = None).
  { intros n Hn Hs. unfold getGlyphPosition, hb_buffer_get_glyph_positions. rewrite Hs.
    destruct (getGlyphPosition_loop _ _ _ _ _) as [[px py] |]; cbn [mbind option_bind];
      [| reflexivity].
    rewrite decide_False by lia. rewrite Nat2Z.id.
    rewrite (lookup_ge_None_2 (glyphs (fHbBuffer this)) n) by lia. reflexivity. }
  unfold hb_buffer_get_length.
  destruct (LE_FAILURE success) eqn:Hs.
  - unfold getGlyphPosition. rewrite Hs.
    split; [split; [auto | intros _; eexists; reflexivity] |].
    split; [reflexivity | discriminate].
  - split; [split |].
    + intros [r Hc]. right.
      destruct (Z.lt_ge_cases glyphIndex 0) as [Hneg | Hpos].
      { unfold getGlyphPosition in Hc. rewrite Hs in Hc.
        unfold hb_buffer_get_glyph_positions in Hc.
        destruct (getGlyphPosition_loop _ _ _ _ _) as [[px py] |];
          cbn [mbind option_bind] in Hc; [| discriminate].
        rewrite decide_True in Hc by exact Hneg. discriminate. }
      destruct (Z.lt_ge_cases glyphIndex (Z.of_nat (length (glyphs (fHbBuffer this)))))
        as [Hlt | Hge]; [lia | exfalso].
      destruct (Z.eq_dec glyphIndex (Z.of_nat (length (glyphs (fHbBuffer this)))))
        as [-> | Hne].
      { rewrite (Hlast _ eq_refl eq_refl) in Hc. discriminate. }
      unfold getGlyphPosition, hb_buffer_get_glyph_positions in Hc. rewrite Hs in Hc.
      rewrite to_uint32_small in Hc by (change (2 ^ 32) with (2 * 2 ^ 31); lia).
      rewrite getGlyphPosition_loop_short in Hc by lia. discriminate.
    + intros [Hf | Hi]; [discriminate |].
      destruct (lookup_lt_is_Some_2 (glyphs (fHbBuffer this)) (Z.to_nat glyphIndex))
        as [g Hg]; [lia |].
      rewrite (getGlyphPosition_correct this glyphIndex x0 y0 success g Hs);
        [eexists; reflexivity | unfold max_int32; lia | exact Hg].
    + split; [discriminate |]. intros _. apply Hlast; reflexivity.
Qed.

Lemma getGlyphPosition_index_bound_witness :
  is_Some (getGlyphPosition Fixture.engine_ell 2 fzero fzero LE_NO_ERROR)
  /\ getGlyphPosition Fixture.engine_ell 3 fzero fzero LE_NO_ERROR = None.
Proof.
  destruct (getGlyphPosition_index_bound Fixture.engine_ell 2 fzero fzero LE_NO_ERROR)
    as (Hiff & _ & Hlast); [reflexivity |].
  split.
  - apply Hiff. right. unfold hb_buffer_get_length. simpl. lia.
  - exact (Hlast eq_refl).
Defined.

(** ** Reset *)

(** X13. [reset] brings a session back to the empty state: no glyphs, the
    origin at zero, font, flags and buffer settings kept. The array
    accessors then write nothing, whatever the array; the positions are
    the one trailing pair, at zero; no glyph index is in range; and a
    second [reset] changes nothing. *)
Theorem reset_empty (this : LayoutEngine) :
  getGlyphCount (reset this) = 0
  /\ x (reset this) = fzero /\ y (reset this) = fzero
  /\ fHbFont (reset this) = fHbFont this
  /\ fTypoFlags (reset this) = fTypoFlags this
  /\ script (fHbBuffer (reset this)) = script (fHbBuffer this)
  /\ unicode_funcs (fHbBuffer (reset this)) = unicode_funcs (fHbBuffer this)
  /\ reset (reset this) = reset this
  /\ (forall (a : list Z) (indexBase extraBits : Z) (success : LEErrorCode),
        getCharIndices (reset this) a success = Some a
        /\ getCharIndices_base (reset this) a indexBase success = Some a
        /\ getGlyphs (reset this) a success = Some a
        /\ getGlyphs_extraBits (reset this) a extraBits success = Some a)
  /\ (forall (p0 p1 : float) (rest : list float),
        getGlyphPositions (reset this) (p0 :: p1 :: rest) LE_NO_ERROR
        = Some (fzero :: fzero :: rest))
  /\ (forall (glyphIndex : Z) (x0 y0 : float),
        getGlyphPosition (reset this) glyphIndex x0 y0 LE_NO_ERROR = None).
Proof.
  split; [reflexivity |]. split; [reflexivity |]. split; [reflexivity |].
  split; [reflexivity |]. split; [reflexivity |]. split; [reflexivity |].
  split; [reflexivity |]. split; [reflexivity |]. split.
  - intros a indexBase extraBits success.
    unfold getCharIndices, getCharIndices_base, getGlyphs, getGlyphs_extraBits.
    destruct (LE_FAILURE success); repeat split.
  - split; [intros p0 p1 rest; reflexivity |].
    intros glyphIndex x0 y0. unfold getGlyphPosition, hb_buffer_get_glyph_positions.
    cbn [LE_FAILURE reset fHbBuffer hb_buffer_set_length glyphs take app replicate Nat.sub].
    destruct (Z.to_nat (to_uint32 glyphIndex)) as [| n]; cbn [getGlyphPosition_loop];
      [| reflexivity].
    cbn [mbind option_bind]. case_decide; reflexivity.
Qed.


(** ** What a shaping call depends on, and what it changes *)

(** The buffer handed to the shaper keeps nothing of the buffer of the
    session but the settings made at construction. *)
Lemma layoutChars_buffer_fresh (this1 this2 : LayoutEngine) (chars : list Z)
    (offset count max : Z) (rightToLeft : bool) :
  unicode_funcs (fHbBuffer this1) = unicode_funcs (fHbBuffer this2) ->
  script (fHbBuffer this1) = script (fHbBuffer this2) ->
  replacement (fHbBuffer this1) = replacement (fHbBuffer this2) ->
  layoutChars_buffer this1 chars offset count max rightToLeft
  = layoutChars_buffer this2 chars offset count max rightToLeft.
Proof.
  intros Hu Hs Hr. unfold layoutChars_buffer. cbv zeta.
  match goal with
  | |- (hb_buffer_add_utf16 ?b1 _ _ _ _ ≫= _) = (hb_buffer_add_utf16 ?b2 _ _ _ _ ≫= _) =>
      assert (Hb : b1 = b2)
  end.
  { unfold hb_buffer_set_flags, hb_buffer_set_length, hb_buffer_set_direction. simpl.
    rewrite Hu, Hs, Hr. reflexivity. }
  rewrite Hb. reflexivity.
Qed.

(** X14. A shaping call that is not rejected starts from scratch: two
    sessions with the same font and the same buffer settings (Unicode
    functions, script, replacement character) return the same font,
    buffer, pen, glyph count and status, whatever glyphs, direction,
    flags, text context and pen an earlier call or a [reset] left in
    them and whatever their typographic flags are. *)
Theorem layoutChars_forgets_previous `{Shaper} (this1 this2 : LayoutEngine)
    (chars : option (list Z)) (offset count max : Z) (rightToLeft : bool)
    (x0 y0 : float) (success : LEErrorCode) :
  fHbFont this1 = fHbFont this2 ->
  unicode_funcs (fHbBuffer this1) = unicode_funcs (fHbBuffer this2) ->
  script (fHbBuffer this1) = script (fHbBuffer this2) ->
  replacement (fHbBuffer this1) = replacement (fHbBuffer this2) ->
  LE_FAILURE success = false ->
  illegal_arguments chars offset count max = false ->
  (fun '(this', n, st) => (fHbFont this', fHbBuffer this', x this', y this', n, st))
    <$> layoutChars this1 chars offset count max rightToLeft x0 y0 success
  = (fun '(this', n, st) => (fHbFont this', fHbBuffer this', x this', y this', n, st))
    <$> layoutChars this2 chars offset count max rightToLeft x0 y0 success.
Proof.
  intros Hf Hu Hsc Hr Hs Hi. unfold layoutChars. rewrite Hs, Hi.
  destruct chars as [text |]; [| reflexivity]. cbn [mbind option_bind fHbFont x y fTypoFlags].
  rewrite (layoutChars_buffer_fresh
             {| fHbFont := fHbFont this1; fHbBuffer := fHbBuffer this1;
                fTypoFlags := fTypoFlags this1; x := x0; y := y0 |}
             {| fHbFont := fHbFont this2; fHbBuffer := fHbBuffer this2;
                fTypoFlags := fTypoFlags this2; x := x0; y := y0 |}
             text offset count max rightToLeft Hu Hsc Hr).
  destruct (layoutChars_buffer _ text offset count max rightToLeft) as [b |];
    cbn [mbind option_bind]; [| reflexivity].
  rewrite Hf. destruct (hb_shape (fHbFont this2) b) as [b' |]; reflexivity.
Qed.

Lemma layoutChars_forgets_previous_witness :
  (fun '(this', n, st) => (fHbFont this', fHbBuffer this', x this', y this', n, st))
    <$> @layoutChars Fixture.shaper Fixture.engine_ell (Some Fixture.hello) 1 3 5 false
          fzero fzero LE_NO_ERROR
  = (fun '(this', n, st) => (fHbFont this', fHbBuffer this', x this', y this', n, st))
    <$> @layoutChars Fixture.shaper Fixture.engine (Some Fixture.hello) 1 3 5 false
          fzero fzero LE_NO_ERROR.
Proof.
  apply (@layoutChars_forgets_previous Fixture.shaper Fixture.engine_ell Fixture.engine);
    reflexivity.
Defined.

(** X15. Neither the language code nor the typographic flags reach the
    shaper: two sessions that the factory makes for the same font
    instance and script, with any language codes and any flags, on any
    storage, have the same font and buffer, and every shaping call on
    them returns the same buffer, glyph count and status. *)
Theorem shaping_ignores_language_and_flags `{Shaper} (object_allocated1 object_allocated2 : bool)
    (alloc1 alloc2 : hb_alloc)
    (raw_x1 raw_y1 raw_x2 raw_y2 : float) (fontInstance : LEFontInstance)
    (scriptCode languageCode1 languageCode2 typoFlags1 typoFlags2 : Z)
    (status1 status2 st1 st2 : LEErrorCode) (this1 this2 : LayoutEngine)
    (chars : option (list Z)) (offset count max : Z) (rightToLeft : bool)
    (x0 y0 : float) (success : LEErrorCode) :
  layoutEngineFactory_typoFlags object_allocated1 alloc1 raw_x1 raw_y1 fontInstance
    scriptCode languageCode1 typoFlags1 status1 = Some (Some this1, st1) ->
  layoutEngineFactory_typoFlags object_allocated2 alloc2 raw_x2 raw_y2 fontInstance
    scriptCode languageCode2 typoFlags2 status2 = Some (Some this2, st2) ->
  fHbFont this1 = fHbFont this2
  /\ fHbBuffer this1 = fHbBuffer this2
  /\ (fun '(this', n, st) => (fHbFont this', fHbBuffer this', n, st))
       <$> layoutChars this1 chars offset count max rightToLeft x0 y0 success
     = (fun '(this', n, st) => (fHbFont this', fHbBuffer this', n, st))
       <$> layoutChars this2 chars offset count max rightToLeft x0 y0 success.
Proof.
  intros H1 H2.
  apply layoutEngineFactory_typoFlags_session in H1
    as (xs1 & ys1 & xp1 & yp1 & Hx1 & Hy1 & (Hp1 & Hq1 & _) & ->).
  apply layoutEngineFactory_typoFlags_session in H2
    as (xs2 & ys2 & xp2 & yp2 & Hx2 & Hy2 & (Hp2 & Hq2 & _) & ->).
  rewrite Hx1 in Hx2. injection Hx2 as <-. rewrite Hy1 in Hy2. injection Hy2 as <-.
  rewrite Hp1 in Hp2. injection Hp2 as <-. rewrite Hq1 in Hq2. injection Hq2 as <-.
  split; [reflexivity |]. split; [reflexivity |].
  unfold layoutChars.
  destruct (LE_FAILURE success); [reflexivity |].
  destruct (illegal_arguments chars offset count max); [reflexivity |].
  destruct chars as [text |]; [| reflexivity].
  cbn [mbind option_bind fHbFont fHbBuffer x y fTypoFlags].
  match goal with
  | |- _ <$> (?a ≫= _) = _ <$> (?b ≫= _) => change b with a; destruct a as [b0 |]
  end; cbn [mbind option_bind]; [| reflexivity].
  destruct (hb_shape _ b0) as [b' |]; reflexivity.
Qed.

Lemma shaping_ignores_language_and_flags_witness :
  (fun '(this', n, st) => (fHbFont this', fHbBuffer this', n, st))
    <$> @layoutChars Fixture.shaper Fixture.engine (Some Fixture.hello) 1 3 5 false
          fzero fzero LE_NO_ERROR
  = (fun '(this', n, st) => (fHbFont this', fHbBuffer this', n, st))
    <$> @layoutChars Fixture.shaper
          {| fHbFont := fHbFont Fixture.engine; fHbBuffer := fHbBuffer Fixture.engine;
             fTypoFlags := 0; x := Fixture.ten; y := Fixture.one |}
          (Some Fixture.hello) 1 3 5 false fzero fzero LE_NO_ERROR.
Proof.
  refine (proj2 (proj2 (@shaping_ignores_language_and_flags Fixture.shaper true true
            Fixture.alloc_ok Fixture.alloc_ok fzero fzero Fixture.ten Fixture.one
            Fixture.font 25 0 7 3 0 LE_NO_ERROR LE_NO_ERROR LE_NO_ERROR LE_NO_ERROR
            _ _ _ _ _ _ _ _ _ _ _ _))).
  - unfold layoutEngineFactory_typoFlags.
    rewrite Fixture_engine_constructed. reflexivity.
  - unfold layoutEngineFactory_typoFlags.
    rewrite (@LayoutEngine_ctor_success Fixture.shaper Fixture.alloc_ok Fixture.ten
               Fixture.one Fixture.font 25 7 0 LE_NO_ERROR 3072 3072 12 12)
      by first [ reflexivity | discriminate ].
    reflexivity.
Defined.

(** X16. What a call of [layoutChars] that returns can have done. The
    status it leaves is the incoming one or, from a successful one,
    [LE_ILLEGAL_ARGUMENT_ERROR]: a shaping problem is never reported.
    With a failure status on return the session is untouched and the
    result is 0. With a success status on return the arguments passed the
    check, the pen is the one given, the result is the glyph count of the
    new buffer, and font and typographic flags are as before. *)
Theorem layoutChars_frame `{Shaper} (this this' : LayoutEngine)
    (chars : option (list Z)) (offset count max : Z) (rightToLeft : bool)
    (x0 y0 : float) (success st : LEErrorCode) (n : Z) :
  layoutChars this chars offset count max rightToLeft x0 y0 success = Some (this', n, st) ->
  (st = success \/ (LE_FAILURE success = false /\ st = LE_ILLEGAL_ARGUMENT_ERROR))
  /\ (LE_FAILURE st = true -> this' = this /\ n = 0)
  /\ (LE_FAILURE st = false ->
      chars <> None /\ 0 <= offset < max /\ 0 <= count /\ add32 offset count <= max
      /\ x this' = x0 /\ y this' = y0 /\ n = getGlyphCount this'
      /\ fHbFont this' = fHbFont this /\ fTypoFlags this' = fTypoFlags this).
Proof.
  unfold layoutChars. intros Hc.
  destruct (LE_FAILURE success) eqn:Hs.
  { injection Hc as <- <- <-. split; [auto |]. split; [auto |]. rewrite Hs. discriminate. }
  destruct (illegal_arguments chars offset count max) eqn:Hi.
  { injection Hc as <- <- <-. split; [auto |]. split; [auto | discriminate]. }
  destruct chars as [text |]; [| discriminate]. cbn [mbind option_bind] in Hc.
  destruct (layoutChars_buffer _ text offset count max rightToLeft) as [b |];
    cbn [mbind option_bind] in Hc; [| discriminate].
  destruct (hb_shape _ b) as [b' |]; cbn [mbind option_bind] in Hc; [| discriminate].
  injection Hc as <- <- <-.
  split; [auto |]. split; [rewrite Hs; discriminate |]. intros _.
  apply not_true_iff_false in Hi. rewrite illegal_arguments_spec in Hi.
  split; [discriminate |].
  split; [lia |]. split; [lia |]. split; [lia |]. repeat split.
Qed.

Lemma layoutChars_frame_witness :
  x Fixture.engine_ell = fzero
  /\ 3 = getGlyphCount Fixture.engine_ell
  /\ fHbFont Fixture.engine_ell = fHbFont Fixture.engine.
Proof.
  destruct (@layoutChars_frame Fixture.shaper Fixture.engine Fixture.engine_ell
              (Some Fixture.hello) 1 3 5 false fzero fzero LE_NO_ERROR LE_NO_ERROR 3
              Fixture_layoutChars_ell) as (_ & _ & Hok).
  destruct (Hok eq_refl) as (_ & _ & _ & _ & Hx & _ & Hn & Hf & _).
  split; [exact Hx |]. split; [exact Hn | exact Hf].
Defined.


(** ** The text a shaping call reads *)

Lemma take_drop_within {A : Type} (l : list A) (o k m : nat) :
  (o + k <= m)%nat -> take k (drop o (take m l)) = take k (drop o l).
Proof.
  intros Hm. rewrite !take_drop_commute, take_take, Nat.min_l by lia. reflexivity.
Qed.

(** On valid arguments the buffer handed to the shaper is made from the
    first [max] code units of the text. *)
Lemma shaping_input_context (this : LayoutEngine) (chars : list Z) (offset count max : Z)
    (rightToLeft : bool) :
  0 <= offset -> 0 <= count -> offset + count <= max ->
  shaping_input this (take (Z.to_nat max) chars) offset count max rightToLeft
  = shaping_input this chars offset count max rightToLeft.
Proof.
  intros Ho Hc Hm. unfold shaping_input.
  rewrite (take_drop_within chars (Z.to_nat offset) (Z.to_nat count) (Z.to_nat max)) by lia.
  rewrite (take_drop_within chars (Z.to_nat offset) (Z.to_nat (max - offset)) (Z.to_nat max))
    by lia.
  rewrite (take_take chars (Z.to_nat offset) (Z.to_nat max)), Nat.min_l by lia.
  reflexivity.
Qed.

(** X17. A valid shaping call reads the text only up to the context
    length: two texts that agree on their first [max] code units give the
    same session, glyph count and status, whatever follows in them. *)
Theorem layoutChars_reads_context_only `{Shaper} (this : LayoutEngine)
    (chars1 chars2 : list Z) (offset count max : Z) (rightToLeft : bool)
    (x0 y0 : float) (success : LEErrorCode) :
  LE_FAILURE success = false ->
  max <= max_int32 ->
  0 <= offset < max ->
  0 <= count ->
  offset + count <= max ->
  max <= Z.of_nat (length chars1) ->
  max <= Z.of_nat (length chars2) ->
  take (Z.to_nat max) chars1 = take (Z.to_nat max) chars2 ->
  layoutChars this (Some chars1) offset count max rightToLeft x0 y0 success
  = layoutChars this (Some chars2) offset count max rightToLeft x0 y0 success.
Proof.
  intros Hs Hmax Ho Hc Hsum Hl1 Hl2 Htake.
  rewrite !layoutChars_valid by assumption.
  rewrite <- (shaping_input_context this chars1) by lia.
  rewrite <- (shaping_input_context this chars2) by lia.
  rewrite Htake. reflexivity.
Qed.

Lemma layoutChars_reads_context_only_witness :
  @layoutChars Fixture.shaper Fixture.engine (Some (Fixture.hello ++ [33; 33])) 1 3 5 false
    fzero fzero LE_NO_ERROR
  = @layoutChars Fixture.shaper Fixture.engine (Some Fixture.hello) 1 3 5 false
      fzero fzero LE_NO_ERROR.
Proof.
  apply (@layoutChars_reads_context_only Fixture.shaper);
    first [ reflexivity | (unfold max_int32; simpl; lia) ].
Defined.

(** ** Reading a shaping result back *)

(** X18. The positions read back after a shaping call that succeeded are
    measured from the pen given to that call: the pen before the first
    glyph is [(x0, y0)], the first glyph sits there moved by its offset,
    and the trailing pair is [(x0, y0)] advanced over all glyphs; the
    value the call returned is the glyph count read back. *)
Theorem layoutChars_positions_from_pen `{Shaper} (this this' : LayoutEngine)
    (chars : option (list Z)) (offset count max : Z) (rightToLeft : bool)
    (x0 y0 : float) (success st : LEErrorCode) (n : Z) (positions : list float) :
  layoutChars this chars offset count max rightToLeft x0 y0 success = Some (this', n, st) ->
  LE_FAILURE st = false ->
  (2 * hb_buffer_get_length (fHbBuffer this') + 2 <= length positions)%nat ->
  exists out,
    getGlyphPositions this' positions st = Some out
    /\ n = getGlyphCount this'
    /\ pen_after this' 0 = (x0, y0)
    /\ out !! (2 * hb_buffer_get_length (fHbBuffer this'))%nat
       = Some (fst (foldl advance_pen (x0, y0) (glyphs (fHbBuffer this'))))
    /\ out !! (2 * hb_buffer_get_length (fHbBuffer this') + 1)%nat
       = Some (snd (foldl advance_pen (x0, y0) (glyphs (fHbBuffer this'))))
    /\ (forall g, glyphs (fHbBuffer this') !! 0%nat = Some g ->
          out !! 0%nat = Some (fadd x0 (to_float (x_offset (pos g))))
          /\ out !! 1%nat = Some (fadd y0 (to_float (y_offset (pos g))))).
Proof.
  intros Hc Hst Hlen.
  assert (Hpen : x this' = x0 /\ y this' = y0 /\ n = getGlyphCount this').
  { unfold layoutChars in Hc.
    destruct (LE_FAILURE success) eqn:Hs.
    { injection Hc as <- <- <-. rewrite Hs in Hst. discriminate. }
    destruct (illegal_arguments chars offset count max).
    { injection Hc as <- <- <-. discriminate. }
    destruct chars as [text |]; [| discriminate]. cbn [mbind option_bind] in Hc.
    destruct (layoutChars_buffer _ text offset count max rightToLeft) as [b |];
      cbn [mbind option_bind] in Hc; [| discriminate].
    destruct (hb_shape _ b) as [b' |]; cbn [mbind option_bind] in Hc; [| discriminate].
    injection Hc as <- <- <-. repeat split. }
  destruct Hpen as (Hx & Hy & Hn).
  destruct (getGlyphPositions_correct this' positions st Hst Hlen)
    as (out & Hg & _ & Hin & Hlx & Hly & _).
  exists out. split; [exact Hg |]. split; [exact Hn |].
  unfold pen_after, hb_buffer_get_length in *. rewrite firstn_all in Hlx, Hly.
  rewrite Hx, Hy in *.
  split; [reflexivity |]. split; [exact Hlx |]. split; [exact Hly |].
  intros g Hg0. destruct (Hin 0%nat g Hg0) as [H0 H1]. split; [exact H0 | exact H1].
Qed.

Lemma layoutChars_positions_from_pen_witness :
  exists out,
    getGlyphPositions Fixture.engine_ell (replicate 8 Fixture.one) LE_NO_ERROR = Some out
    /\ 3 = getGlyphCount Fixture.engine_ell
    /\ out !! 6%nat
       = Some (fst (foldl advance_pen (fzero, fzero) (glyphs (fHbBuffer Fixture.engine_ell)))).
Proof.
  destruct (@layoutChars_positions_from_pen Fixture.shaper Fixture.engine Fixture.engine_ell
              (Some Fixture.hello) 1 3 5 false fzero fzero LE_NO_ERROR LE_NO_ERROR 3
              (replicate 8 Fixture.one) Fixture_layoutChars_ell)
    as (out & Hg & Hn & _ & Hx & _);
    [reflexivity | unfold hb_buffer_get_length; simpl; lia |].
  exists out. split; [exact Hg |]. split; [exact Hn | exact Hx].
Defined.

(** ** An empty subrange *)

(** X19. A subrange of no characters inside a non-empty context is not
    rejected: the shaper runs on a buffer without glyphs, with the text
    around the position as context, and with a shaper that invents no
    cluster values the call returns 0 and leaves an empty buffer. *)
Theorem layoutChars_empty_subrange `{S : Shaper} (this : LayoutEngine) (chars : list Z)
    (offset max : Z) (rightToLeft : bool) (x0 y0 : float) (success : LEErrorCode) :
  shaper_contract S ->
  LE_FAILURE success = false ->
  max <= max_int32 ->
  0 <= offset < max ->
  max <= Z.of_nat (length chars) ->
  exists b,
    glyphs b = []
    /\ context_post b
       = take CONTEXT_LENGTH
           (codepoint <$> utf16_next (replacement (fHbBuffer this)) 0
              (take (Z.to_nat (max - offset)) (drop (Z.to_nat offset) chars)))
    /\ layoutChars this (Some chars) offset 0 max rightToLeft x0 y0 success
       = (b' ← hb_shape (fHbFont this) b;
          Some ({| fHbFont := fHbFont this; fHbBuffer := b'; fTypoFlags := fTypoFlags this;
                   x := x0; y := y0 |}, 0, success))
    /\ (forall b', hb_shape (fHbFont this) b = Some b' -> glyphs b' = []).
Proof.
  intros HC Hs Hmax Ho Hl.
  exists (shaping_input this chars offset 0 max rightToLeft).
  assert (Hempty : forall b', hb_shape (fHbFont this)
                                (shaping_input this chars offset 0 max rightToLeft) = Some b' ->
                              glyphs b' = []).
  { intros b' Hsh. destruct (glyphs b') as [| g rest] eqn:Hg; [reflexivity | exfalso].
    destruct (shape_clusters S HC _ _ _ g Hsh) as (g0 & Hg0 & _).
    - rewrite Hg. apply elem_of_cons. left. reflexivity.
    - simpl in Hg0. inversion Hg0. }
  split; [reflexivity |]. split; [reflexivity |]. split; [| exact Hempty].
  rewrite layoutChars_valid by (assumption || lia).
  destruct (hb_shape _ _) as [b' |] eqn:Hsh; cbn [mbind option_bind]; [| reflexivity].
  rewrite (Hempty b' eq_refl). reflexivity.
Qed.

Lemma layoutChars_empty_subrange_witness :
  exists this',
    @layoutChars Fixture.shaper Fixture.engine (Some Fixture.hello) 2 0 5 true
      Fixture.ten Fixture.one LE_NO_ERROR
    = Some (this', 0, LE_NO_ERROR)
    /\ glyphs (fHbBuffer this') = [].
Proof.
  destruct (@layoutChars_empty_subrange Fixture.shaper Fixture.engine Fixture.hello 2 5 true
              Fixture.ten Fixture.one LE_NO_ERROR Fixture_shaper_contract)
    as (b & Hb & _ & Hcall & Hempty);
    first [ reflexivity | (unfold max_int32; simpl; lia) | idtac ].
  destruct (@hb_shape Fixture.shaper (fHbFont Fixture.engine) b) as [b' |] eqn:Hsh.
  - eexists. split; [exact Hcall |]. exact (Hempty b' eq_refl).
  - exfalso. simpl in Hsh. unfold Fixture.shape in Hsh. rewrite Hb in Hsh. discriminate.
Defined.

